(** * env-type-generator: the validation engine

    A shallow embedding of [env_type_generator/config.py] and
    [env_type_generator/validation.py], with the properties the
    specification states about the type-coercion engine, the environment
    validator, the schema validator and the drift comparator.

    Conventions.
    - A Python [str] is a [string]: a sequence of characters with codes
      0..255, read as the code points U+0000..U+00FF.  [sorted] on strings
      is the lexicographic order on code points, which is [String.le].
    - An exception raised by the code is the [Raise] case of [result]; it
      carries [str(exc)], the text the validator formats into its message.
    - [float] and [json.loads] belong to the language runtime, not to the
      repository: they are the fields of the class [Runtime], and every
      property is proved for every runtime. *)

From stdpp Require Import base decidable option list sorting gmap strings.
From Stdlib Require Import Ascii String NArith Lia.

Local Open Scope string_scope.

(** ** Results of fallible code *)

Inductive result (A : Type) : Type :=
| Ok (a : A)
| Raise (msg : string).
Arguments Ok {A} a.
Arguments Raise {A} msg.

Definition result_map {A B} (f : A → B) (r : result A) : result B :=
  match r with
  | Ok a => Ok (f a)
  | Raise msg => Raise msg
  end.

Definition succeeds {A} (r : result A) : Prop := ∃ a, r = Ok a.
Definition fails {A} (r : result A) : Prop := ∃ msg, r = Raise msg.

(** [l.append(x)] *)
Definition list_append {A} (l : list A) (x : A) : list A := (l ++ [x])%list.

(** ** The string operations of the runtime that the code uses *)

Module Str.

(** [str.lower] on the code points below 256: the ASCII capitals, and the
    Latin-1 capitals U+00C0..U+00DE except the multiplication sign. *)
Definition lower_char (c : ascii) : ascii :=
  let n := N_of_ascii c in
  if ((65 <=? n) && (n <=? 90) || (192 <=? n) && (n <=? 222) && negb (n =? 215))%N
  then ascii_of_N (n + 32)
  else c.

Fixpoint lower (s : string) : string :=
  match s with
  | EmptyString => EmptyString
  | String c s' => String (lower_char c) (lower s')
  end.

Definition startswith (s pre : string) : bool := String.prefix pre s.

(** [s.endswith(suf)]: the last [len(suf)] characters of [s] are [suf]. *)
Definition endswith (s suf : string) : bool :=
  (String.length suf <=? String.length s)%nat
  && String.eqb (substring (String.length s - String.length suf) (String.length suf) s) suf.

(** The slice [s[:-1]]: all but the last character (empty for the empty
    string). *)
Definition drop_last (s : string) : string :=
  substring 0 (String.length s - 1) s.

Fixpoint contains_char (c : ascii) (s : string) : bool :=
  match s with
  | EmptyString => false
  | String c' s' => Ascii.eqb c c' || contains_char c s'
  end.

Definition squote : ascii := ascii_of_N 39.
Definition dquote : ascii := ascii_of_N 34.
Definition backslash : ascii := ascii_of_N 92.

Definition hex_digit (n : N) : ascii :=
  if (n <? 10)%N then ascii_of_N (48 + n) else ascii_of_N (87 + n).

(** The code points below 256 that [repr] writes as an escape. *)
Definition repr_char (q c : ascii) : string :=
  let n := N_of_ascii c in
  if Ascii.eqb c q || Ascii.eqb c backslash then String backslash (String c EmptyString)
  else if (n =? 9)%N then String backslash "t"
  else if (n =? 10)%N then String backslash "n"
  else if (n =? 13)%N then String backslash "r"
  else if ((n <? 32) || (n =? 127) || (128 <=? n) && (n <=? 160) || (n =? 173))%N
  then String backslash (String "x" (String (hex_digit (n / 16)) (String (hex_digit (n mod 16)) EmptyString)))
  else String c EmptyString.

Fixpoint repr_body (q : ascii) (s : string) : string :=
  match s with
  | EmptyString => EmptyString
  | String c s' => repr_char q c ++ repr_body q s'
  end.

(** [repr] of a [str]: single quotes, unless the text has a single quote
    and no double quote. *)
Definition repr (s : string) : string :=
  let q := if contains_char squote s && negb (contains_char dquote s)
           then dquote else squote in
  String q (repr_body q s ++ String q EmptyString).

Fixpoint join (sep : string) (l : list string) : string :=
  match l with
  | [] => EmptyString
  | [x] => x
  | x :: l' => x ++ sep ++ join sep l'
  end.

(** [repr] (and [str], and an f-string field) of a list of [str]. *)
Definition repr_list (l : list string) : string :=
  "[" ++ join ", " (repr <$> l) ++ "]".

(** [str.isspace] on one character: the white space below code point 256. *)
Definition isspace (c : ascii) : bool :=
  let n := N_of_ascii c in
  ((9 <=? n) && (n <=? 13) || (28 <=? n) && (n <=? 32) || (n =? 133) || (n =? 160))%N.

Fixpoint lstrip (s : string) : string :=
  match s with
  | EmptyString => EmptyString
  | String c s' => if isspace c then lstrip s' else s
  end.

Fixpoint rstrip (s : string) : string :=
  match s with
  | EmptyString => EmptyString
  | String c s' =>
      match rstrip s' with
      | EmptyString => if isspace c then EmptyString else String c EmptyString
      | r => String c r
      end
  end.

(** [s.strip()] *)
Definition strip (s : string) : string := rstrip (lstrip s).

(** [sub in s] *)
Fixpoint contains (sub s : string) : bool :=
  String.prefix sub s
  || match s with
     | EmptyString => false
     | String _ s' => contains sub s'
     end.

Fixpoint skip (n : nat) (s : string) : string :=
  match n, s with
  | S n', String _ s' => skip n' s'
  | _, _ => s
  end.

(** [s.split(sep, 1)] for a non-empty [sep]: the text before and after the
    first [sep], or [s] alone when it has none. *)
Fixpoint split1 (sep s : string) : list string :=
  if String.prefix sep s then [EmptyString; skip (String.length sep) s]
  else match s with
       | EmptyString => [EmptyString]
       | String c s' =>
           match split1 sep s' with
           | head :: rest => String c head :: rest
           | [] => []
           end
       end.

Definition LF : ascii := ascii_of_N 10.
Definition CR : ascii := ascii_of_N 13.

(** The lines a text file yields when it is iterated in text mode: a line
    ends after a line feed, a carriage return or the pair of them, each read
    as one line feed; the last line may have no end. *)
Fixpoint readlines (text : string) : list string :=
  match text with
  | EmptyString => []
  | String c text' =>
      if Ascii.eqb c LF then String LF EmptyString :: readlines text'
      else if Ascii.eqb c CR then
        match text' with
        | String c' text'' =>
            if Ascii.eqb c' LF then String LF EmptyString :: readlines text''
            else String LF EmptyString :: readlines text'
        | EmptyString => [String LF EmptyString]
        end
      else match readlines text' with
           | line :: lines => String c line :: lines
           | [] => [String c EmptyString]
           end
  end.

End Str.

(** ** The runtime: [float] and [json.loads] *)

Class Runtime : Type := {
  PyFloat : Type;
  float : string → result PyFloat;
  Json : Type;
  json_loads : string → result Json;
}.

(** ** config.py: the data model *)

(** The value of a [default] that is set.  The code under study only
    compares a default with [None]; the constructors are the decoded JSON
    scalars other than [null]. *)
Inductive Any : Type :=
| AnyStr (s : string)
| AnyBool (b : bool)
| AnyInt (z : Z).

Definition SUPPORTED_TYPES : list string :=
  ["string"; "number"; "boolean"; "enum"; "url"; "duration"; "json"].

(** A Python [dict] with string keys, in insertion order.  Writing an
    existing key replaces its value in place. *)
Definition dict (V : Type) : Type := list (string * V).

Fixpoint dict_set {V} (k : string) (v : V) (d : dict V) : dict V :=
  match d with
  | [] => [(k, v)]
  | (k', v') :: d' =>
      if decide (k' = k) then (k, v) :: d' else (k', v') :: dict_set k v d'
  end.

Fixpoint dict_lookup {V} (k : string) (d : dict V) : option V :=
  match d with
  | [] => None
  | (k', v') :: d' => if decide (k' = k) then Some v' else dict_lookup k d'
  end.

(** [d.get(k, dflt)] *)
Definition dict_get {V} (k : string) (dflt : V) (d : dict V) : V :=
  match dict_lookup k d with
  | Some v => v
  | None => dflt
  end.

Definition dict_keys {V} (d : dict V) : list string := fst <$> d.

Module VariableDefinition.

Record t : Type := mk {
  name : string;
  type : string;
  required : bool;
  default : option Any;
  description : option string;
  secret : bool;
  deprecated : bool;
  enum : option (list string);
}.

Definition msg_unsupported_type (env_name name type : string) : string :=
  "[" ++ env_name ++ "] variable '" ++ name ++ "' uses unsupported type '" ++ type ++ "'.".

Definition msg_empty_enum (env_name name : string) : string :=
  "[" ++ env_name ++ "] variable '" ++ name ++ "' is enum but enum values are empty.".

Definition msg_required_default (env_name name : string) : string :=
  "[" ++ env_name ++ "] variable '" ++ name
    ++ "' is marked required but also provides a default; choose one.".

(** The truth value of [self.enum]: set and non-empty. *)
Definition enum_truthy (o : option (list string)) : bool :=
  match o with
  | Some (_ :: _) => true
  | _ => false
  end.

(** [validate(self, errors, env_name)]: the error list after the call. *)
Definition validate (self : t) (errors : list string) (env_name : string) : list string :=
  let errors :=
    if bool_decide (type self ∈ SUPPORTED_TYPES) then errors
    else list_append errors (msg_unsupported_type env_name (name self) (type self)) in
  let errors :=
    if bool_decide (type self = "enum") && negb (enum_truthy (enum self))
    then list_append errors (msg_empty_enum env_name (name self))
    else errors in
  if bool_decide (default self ≠ None) && required self
  then list_append errors (msg_required_default env_name (name self))
  else errors.

End VariableDefinition.

Module TargetDefinition.

Record t : Type := mk {
  language : string;
  out_dir : string;
}.

End TargetDefinition.

Module Config.

Record t : Type := mk {
  schema_version : string;
  environments : dict (list VariableDefinition.t);
  targets : list TargetDefinition.t;
}.

Definition msg_duplicate (env name : string) : string :=
  "[" ++ env ++ "] variable '" ++ name ++ "' is declared more than once.".

Definition msg_no_target : string :=
  "At least one generation target must be defined.".

(** The body of the inner loop: the set of names seen and the errors. *)
Definition validate_var (env : string) (st : gset string * list string)
    (var : VariableDefinition.t) : gset string * list string :=
  let '(names, errors) := st in
  let errors :=
    if bool_decide (VariableDefinition.name var ∈ names)
    then list_append errors (msg_duplicate env (VariableDefinition.name var))
    else errors in
  ({[VariableDefinition.name var]} ∪ names, VariableDefinition.validate var errors env).

(** The body of the outer loop: [names] starts empty in each environment. *)
Definition validate_env_entry (errors : list string)
    (entry : string * list VariableDefinition.t) : list string :=
  let '(env, variables) := entry in
  snd (foldl (validate_var env) (∅, errors) variables).

Definition validate (self : t) : list string :=
  let errors := foldl validate_env_entry [] (environments self) in
  match targets self with
  | [] => list_append errors (msg_no_target)
  | _ :: _ => errors
  end.

End Config.

(** ** validation.py *)

Definition truthy : list string := ["true"; "1"; "yes"; "y"; "on"].

Definition _parse_bool (value : string) : bool :=
  bool_decide (Str.lower value ∈ truthy).

(** [sorted] of a set of strings. *)
Definition sorted (X : gset string) : list string :=
  merge_sort String.le (elements X).

(** The dict comprehension [{v.name: v for v in variables}]. *)
Definition by_name (variables : list VariableDefinition.t) : dict VariableDefinition.t :=
  foldl (λ d v, dict_set (VariableDefinition.name v) v d) [] variables.

(** [config.environments.get(env_name, [])] *)
Definition env_variables (config : Config.t) (env_name : string) : list VariableDefinition.t :=
  dict_get env_name [] (Config.environments config).

Section validation.
Context {rt : Runtime}.

(** What [_parse_value] returns: a [str], a [float], a [bool] or a decoded
    JSON document. *)
Inductive PyValue : Type :=
| VStr (s : string)
| VFloat (f : PyFloat)
| VBool (b : bool)
| VJson (j : Json).

Definition msg_not_allowed (value : string) (enum : list string) : string :=
  "Value '" ++ value ++ "' not allowed; expected one of " ++ Str.repr_list enum ++ ".".

Definition msg_bad_url : string := "URL must start with http:// or https://".

Definition _parse_value (value : string) (definition : VariableDefinition.t)
    : result PyValue :=
  let type := VariableDefinition.type definition in
  if decide (type = "string") then Ok (VStr value)
  else if decide (type = "number") then result_map VFloat (float value)
  else if decide (type = "boolean") then Ok (VBool (_parse_bool value))
  else if decide (type = "enum") then
    match VariableDefinition.enum definition with
    | Some ((_ :: _) as enum) =>
        if bool_decide (value ∈ enum) then Ok (VStr value)
        else Raise (msg_not_allowed value enum)
    | _ => Ok (VStr value)
    end
  else if decide (type = "url") then
    if negb (Str.startswith value "http://" || Str.startswith value "https://")
    then Raise msg_bad_url
    else Ok (VStr value)
  else if decide (type = "duration") then
    if Str.endswith value "s"
    then result_map VFloat (float (Str.drop_last value))
    else result_map VFloat (float value)
  else if decide (type = "json") then result_map VJson (json_loads value)
  else Ok (VStr value).

Definition msg_missing (env_name name env_file : string) : string :=
  "[" ++ env_name ++ "] missing required variable '" ++ name ++ "' in " ++ env_file.

Definition msg_invalid (env_name name exc : string) : string :=
  "[" ++ env_name ++ "] variable '" ++ name ++ "' invalid: " ++ exc.

Definition msg_extra (env_name name env_file : string) : string :=
  "[" ++ env_name ++ "] extra variable '" ++ name ++ "' present in " ++ env_file.

(** The body of the loop over [declared.items()]. *)
Definition check_declared (env_name env_file : string) (provided : gmap string string)
    (errors : list string) (item : string * VariableDefinition.t) : list string :=
  let '(name, definition) := item in
  match provided !! name with
  | None =>
      if VariableDefinition.required definition
         && bool_decide (VariableDefinition.default definition = None)
      then list_append errors (msg_missing env_name name env_file)
      else errors
  | Some raw =>
      match _parse_value raw definition with
      | Ok _ => errors
      | Raise exc => list_append errors (msg_invalid env_name name exc)
      end
  end.

(** [validate_env], given the mapping [provided] that [load_env_file]
    read from [env_file]. *)
Definition validate_env (config : Config.t) (env_name env_file : string)
    (provided : gmap string string) : list string :=
  let declared := by_name (env_variables config env_name) in
  let errors := foldl (check_declared env_name env_file provided) [] declared in
  let extra := dom provided ∖ list_to_set (dict_keys declared) in
  foldl (λ errors name, list_append errors (msg_extra env_name name env_file))
    errors (sorted extra).

End validation.

Definition validate_schema (config : Config.t) : bool * list string :=
  let errors := Config.validate config in
  (bool_decide (errors = []), errors).

Definition msg_drift (name declared_in missing_in : string) : string :=
  "Variable '" ++ name ++ "' declared in " ++ declared_in ++ " but missing in " ++ missing_in ++ ".".

Definition diff_environments (config : Config.t) (left_env right_env : string) : list string :=
  let left := by_name (env_variables config left_env) in
  let right := by_name (env_variables config right_env) in
  let missing_in_right :=
    sorted (list_to_set (dict_keys left) ∖ list_to_set (dict_keys right)) in
  let missing_in_left :=
    sorted (list_to_set (dict_keys right) ∖ list_to_set (dict_keys left)) in
  let errors := foldl (λ errors name, list_append errors (msg_drift name left_env right_env))
                  [] missing_in_right in
  foldl (λ errors name, list_append errors (msg_drift name right_env left_env))
    errors missing_in_left.

(** The body of the loop of [load_env_file] over the lines of the file. *)
Definition load_env_line (data : gmap string string) (line : string) : gmap string string :=
  let stripped := Str.strip line in
  if bool_decide (stripped = EmptyString) || Str.startswith stripped "#" then data
  else if negb (Str.contains "=" stripped) then data
  else match Str.split1 "=" stripped with
       | [key; value] => <[Str.strip key := Str.strip value]> data
       | _ => data
       end.

(** [load_env_file(path)], given what the path holds: [None] when nothing
    exists there, the decoded text of the file otherwise.  The result is
    kept as a map: its callers look keys up and take the set of keys. *)
Definition load_env_file (file : option string) : gmap string string :=
  match file with
  | None => ∅
  | Some text => foldl load_env_line ∅ (Str.readlines text)
  end.

(** [validate_env(config, env_name, env_file)] with the file read by
    [load_env_file]: [file] is what the path [env_file] holds. *)
Definition validate_env_file {rt : Runtime} (config : Config.t) (env_name env_file : string)
    (file : option string) : list string :=
  validate_env config env_name env_file (load_env_file file).

(** ** cli.py *)

Module cli.

Inductive level : Type := INFO | WARNING | ERROR.

(** The truth value of an optional command-line string: set and non-empty. *)
Definition given (o : option string) : bool :=
  match o with
  | Some (String _ _) => true
  | _ => false
  end.

(** [validate_command(args)] from the loaded configuration on: [env] is
    [args.env], [file] what that path holds, [environment] is
    [args.environment] and [drift_with] is [args.drift_with].  The result is
    the records logged, in order, and the exit status. *)
Definition validate_command {rt : Runtime} (config : Config.t) (env : string)
    (file : option string) (environment : string) (drift_with : option string)
    : list (level * string) * Z :=
  let '(ok, schema_errors) := validate_schema config in
  let errors := schema_errors in
  let log := if negb ok then [(ERROR, "Schema validation failed")] else [] in
  let errors := (errors ++ validate_env_file config environment env file)%list in
  let log := (log ++ ((λ err, (ERROR, err)) <$> errors))%list in
  if given drift_with then
    let drift := diff_environments config environment (default EmptyString drift_with) in
    let log := (log ++ ((λ err, (ERROR, err)) <$> drift))%list in
    let errors := (errors ++ drift)%list in
    (log, if bool_decide (errors = []) then 0%Z else 1%Z)
  else (log, if bool_decide (errors = []) then 0%Z else 1%Z).

(** [doctor_command(args)] from the loaded configuration on. *)
Definition doctor_command (config : Config.t) : list (level * string) * Z :=
  let '(ok, schema_errors) := validate_schema config in
  let log := if ok then [(INFO, "Config schema looks good.")] else [] in
  let log := (log ++ ((λ err, (ERROR, err)) <$> schema_errors))%list in
  (log, if ok then 0%Z else 1%Z).

(** The text read from a file in text mode: every line end is one line
    feed. *)
Definition read_text (raw : string) : string :=
  String.concat EmptyString (Str.readlines raw).

(** What [init_command] writes to [.gitignore], given what the file held
    ([None] when it did not exist). *)
Definition init_gitignore (gitignore : option string) : string :=
  let content := match gitignore with
                 | Some raw => read_text raw
                 | None => EmptyString
                 end in
  let content :=
    foldl (λ content item,
             if negb (Str.contains item content)
             then content ++ String Str.LF item
             else content)
      content [".env.*"; "generated"] in
  Str.strip content ++ String Str.LF EmptyString.

End cli.

(** ** A runtime to evaluate the model on concrete inputs

    [float] and [json.loads] as the interpreter accepts text made of the
    code points below 256.  A float is kept as its literal and a JSON
    document as its text; the message of a rejected JSON document is
    abridged.  No property below depends on this instance. *)

Module Reference.

Definition code (c : ascii) : N := N_of_ascii c.

Definition is_digit (c : ascii) : bool := (48 <=? code c)%N && (code c <=? 57)%N.

(** The characters [float] removes at both ends. *)
Definition is_space (c : ascii) : bool :=
  (9 <=? code c)%N && (code c <=? 13)%N
  || (code c =? 32)%N || (code c =? 133)%N || (code c =? 160)%N.

Fixpoint lstrip (s : string) : string :=
  match s with
  | String c s' => if is_space c then lstrip s' else s
  | EmptyString => s
  end.

Definition strip (s : string) : string :=
  String.rev (lstrip (String.rev (lstrip s))).

Definition skip_sign (s : string) : string :=
  match s with
  | String c s' => if (code c =? 43)%N || (code c =? 45)%N then s' else s
  | EmptyString => s
  end.

(** The rest of a digit part: digits, each preceded by at most one
    underscore. *)
Fixpoint digits_tail (s : string) : string :=
  match s with
  | String c s' =>
      if is_digit c then digits_tail s'
      else if (code c =? 95)%N then
        match s' with
        | String d s'' => if is_digit d then digits_tail s'' else s
        | EmptyString => s
        end
      else s
  | EmptyString => s
  end.

Definition digitpart (s : string) : option string :=
  match s with
  | String c s' => if is_digit c then Some (digits_tail s') else None
  | EmptyString => None
  end.

Definition is_dot (c : ascii) : bool := (code c =? 46)%N.
Definition is_e (c : ascii) : bool := (code c =? 101)%N || (code c =? 69)%N.

(** [digitpart ["." [digitpart]]] or ["." digitpart]: what is left. *)
Definition number (s : string) : option string :=
  match digitpart s with
  | Some r =>
      match r with
      | String c r' =>
          if is_dot c then Some (from_option id r' (digitpart r')) else Some r
      | EmptyString => Some r
      end
  | None =>
      match s with
      | String c r' => if is_dot c then digitpart r' else None
      | EmptyString => None
      end
  end.

Definition floatnumber (s : string) : bool :=
  match number s with
  | Some EmptyString => true
  | Some (String c r) =>
      is_e c && bool_decide (digitpart (skip_sign r) = Some EmptyString)
  | None => false
  end.

Definition float_literal (s : string) : bool :=
  let body := skip_sign (strip s) in
  bool_decide (Str.lower body ∈ ["inf"; "infinity"; "nan"]) || floatnumber body.

Definition float_of_str (s : string) : result string :=
  if float_literal s then Ok (strip s)
  else Raise ("could not convert string to float: " ++ Str.repr s).

(** JSON text. *)

Definition is_ws (c : ascii) : bool :=
  (code c =? 32)%N || (code c =? 9)%N || (code c =? 10)%N || (code c =? 13)%N.

Fixpoint skip_ws (s : string) : string :=
  match s with
  | String c s' => if is_ws c then skip_ws s' else s
  | EmptyString => s
  end.

Definition is_hex (c : ascii) : bool :=
  is_digit c || (97 <=? code c)%N && (code c <=? 102)%N
  || (65 <=? code c)%N && (code c <=? 70)%N.

(** After the opening quote: what follows the closing one. *)
Fixpoint json_string (s : string) : option string :=
  match s with
  | EmptyString => None
  | String c s' =>
      if (code c =? 34)%N then Some s'
      else if (code c <? 32)%N then None
      else if (code c =? 92)%N then
        match s' with
        | String e s'' =>
            if bool_decide (e ∈ String.list_ascii_of_string "\/bfnrt") || (code e =? 34)%N
            then json_string s''
            else if (code e =? 117)%N then
              match s'' with
              | String h1 (String h2 (String h3 (String h4 s4))) =>
                  if is_hex h1 && is_hex h2 && is_hex h3 && is_hex h4
                  then json_string s4 else None
              | _ => None
              end
            else None
        | EmptyString => None
        end
      else json_string s'
  end.

Fixpoint skip_digits (s : string) : string :=
  match s with
  | String c s' => if is_digit c then skip_digits s' else s
  | EmptyString => s
  end.

Definition digits1 (s : string) : option string :=
  match s with
  | String c s' => if is_digit c then Some (skip_digits s') else None
  | EmptyString => None
  end.

(** An optional minus, then 0 or a digit string without leading zero,
    then an optional fraction and an optional exponent: longest match. *)
Definition json_number (s : string) : option string :=
  let s := match s with
           | String c s' => if (code c =? 45)%N then s' else s
           | EmptyString => s
           end in
  match s with
  | String c s' =>
      if is_digit c then
        let r := if (code c =? 48)%N then s' else skip_digits s' in
        let r := match r with
                 | String d r' => if is_dot d then from_option id r (digits1 r') else r
                 | EmptyString => r
                 end in
        Some match r with
             | String e r' => if is_e e then from_option id r (digits1 (skip_sign r')) else r
             | EmptyString => r
             end
      else None
  | EmptyString => None
  end.

Definition keywords : list string :=
  ["null"; "true"; "false"; "NaN"; "Infinity"; "-Infinity"].

Definition keyword (s : string) : option string :=
  (λ k, substring (String.length k) (String.length s) s)
    <$> List.find (λ k, String.prefix k s) keywords.

Inductive mode : Type := Value | Items | Members.

(** One JSON value, the rest of an array after its bracket, or the rest
    of an object after its brace: what follows it. *)
Fixpoint json_scan (fuel : nat) (m : mode) (s : string) : option string :=
  match fuel with
  | O => None
  | S fuel =>
      match m, s with
      | Value, String c r =>
          if (code c =? 34)%N then json_string r
          else if (code c =? 91)%N then
            match skip_ws r with
            | String d r' => if (code d =? 93)%N then Some r' else json_scan fuel Items (skip_ws r)
            | EmptyString => None
            end
          else if (code c =? 123)%N then
            match skip_ws r with
            | String d r' => if (code d =? 125)%N then Some r' else json_scan fuel Members (skip_ws r)
            | EmptyString => None
            end
          else match keyword s with
               | Some r' => Some r'
               | None => json_number s
               end
      | Items, _ =>
          match skip_ws <$> json_scan fuel Value s with
          | Some (String d r) =>
              if (code d =? 44)%N then json_scan fuel Items (skip_ws r)
              else if (code d =? 93)%N then Some r else None
          | _ => None
          end
      | Members, String c r =>
          if (code c =? 34)%N then
            match skip_ws <$> json_string r with
            | Some (String d r') =>
                if (code d =? 58)%N then
                  match skip_ws <$> json_scan fuel Value (skip_ws r') with
                  | Some (String d r'') =>
                      if (code d =? 44)%N then json_scan fuel Members (skip_ws r'')
                      else if (code d =? 125)%N then Some r'' else None
                  | _ => None
                  end
                else None
            | _ => None
            end
          else None
      | _, EmptyString => None
      end
  end.

Definition json_text (s : string) : bool :=
  match skip_ws <$> json_scan (2 * String.length s + 2) Value (skip_ws s) with
  | Some EmptyString => true
  | _ => false
  end.

Definition json_of_str (s : string) : result string :=
  if json_text s then Ok s else Raise "invalid JSON document".

Definition runtime : Runtime :=
  {| PyFloat := string; float := float_of_str;
     Json := string; json_loads := json_of_str |}.

End Reference.

(** ** The vocabulary of the specification *)

(** The environment [env_name] of [config] declares a variable named [n]. *)
Definition declares (config : Config.t) (env_name n : string) : Prop :=
  n ∈ VariableDefinition.name <$> env_variables config env_name.

(** [v] is declared in [variables], and no later declaration has its name. *)
Definition last_declaration (v : VariableDefinition.t)
    (variables : list VariableDefinition.t) : Prop :=
  ∃ pre post, variables = (pre ++ v :: post)%list
              ∧ VariableDefinition.name v ∉ VariableDefinition.name <$> post.

(** [l] lists the strings that satisfy [P], each once, in lexicographic
    order. *)
Definition sorted_listing (l : list string) (P : string → Prop) : Prop :=
  StronglySorted String.le l ∧ NoDup l ∧ ∀ k, k ∈ l ↔ P k.

(** The mapping [provided] meets the declaration [v]: the name is bound to
    a value that parses, or it is not bound and [v] is optional or has a
    default. *)
Definition satisfies {rt : Runtime} (provided : gmap string string)
    (v : VariableDefinition.t) : Prop :=
  match provided !! VariableDefinition.name v with
  | Some raw => succeeds (_parse_value raw v)
  | None => VariableDefinition.required v = false ∨ VariableDefinition.default v ≠ None
  end.

(** The declaration [v] breaks no rule of the schema for one variable. *)
Definition variable_ok (v : VariableDefinition.t) : Prop :=
  VariableDefinition.type v ∈ SUPPORTED_TYPES
  ∧ (VariableDefinition.type v = "enum" →
     ∃ x xs, VariableDefinition.enum v = Some (x :: xs))
  ∧ ¬ (VariableDefinition.required v = true ∧ VariableDefinition.default v ≠ None).

(** The configuration has a target, and in each environment the names are
    distinct and every declaration breaks no rule. *)
Definition schema_ok (config : Config.t) : Prop :=
  Config.targets config ≠ []
  ∧ ∀ env variables,
      (env, variables) ∈ Config.environments config →
      NoDup (VariableDefinition.name <$> variables)
      ∧ ∀ v, v ∈ variables → variable_ok v.

(** [s] has no line end in it. *)
Definition one_line (s : string) : Prop :=
  Str.contains_char Str.LF s = false ∧ Str.contains_char Str.CR s = false.

(** [text] is made of whole lines: it is empty or ends with a line feed. *)
Definition whole_lines (text : string) : Prop :=
  text = EmptyString ∨ ∃ t, text = (t ++ String Str.LF EmptyString)%string.

(** A key that a line [KEY=VALUE] gives back: trimmed, on one line, without
    [=] and not starting a comment. *)
Definition env_key (k : string) : Prop :=
  Str.strip k = k ∧ one_line k ∧ Str.contains "=" k = false ∧ Str.startswith k "#" = false.

(** A value that a line [KEY=VALUE] gives back: trimmed and on one line. *)
Definition env_value (v : string) : Prop :=
  Str.strip v = v ∧ one_line v.

(** The line [KEY=VALUE] of a binding, with its line feed. *)
Definition env_line (k v : string) : string :=
  (k ++ "=" ++ v ++ String Str.LF EmptyString)%string.

(** The text with one line [KEY=VALUE] per binding. *)
Fixpoint env_text (bindings : list (string * string)) : string :=
  match bindings with
  | [] => EmptyString
  | (k, v) :: rest => (env_line k v ++ env_text rest)%string
  end.

(** ** Sample data: the template configuration of the command line *)

Module Sample.

Definition API_URL : VariableDefinition.t :=
  VariableDefinition.mk "API_URL" "url" true None None false false None.

Definition FEATURE_FLAG : VariableDefinition.t :=
  VariableDefinition.mk "FEATURE_FLAG" "boolean" false (Some (AnyStr "false"))
    None false false None.

Definition TEMPLATE_CONFIG : Config.t :=
  Config.mk "0.1"
    [("development", [API_URL; FEATURE_FLAG]); ("production", [API_URL; FEATURE_FLAG])]
    [TargetDefinition.mk "ts" "generated/ts";
     TargetDefinition.mk "go" "generated/go";
     TargetDefinition.mk "python" "generated/python"].

Definition MODE : VariableDefinition.t :=
  VariableDefinition.mk "MODE" "enum" true None None false false (Some ["a"; "b"]).

Definition PORT : VariableDefinition.t :=
  VariableDefinition.mk "PORT" "number" true None None false false None.

Definition TIMEOUT : VariableDefinition.t :=
  VariableDefinition.mk "TIMEOUT" "duration" true None None false false None.

(** A variable of a type that the schema does not support. *)
Definition LEGACY : VariableDefinition.t :=
  VariableDefinition.mk "LEGACY" "integer" true None None false false None.

(** A variable that is required and has a default. *)
Definition TOKEN : VariableDefinition.t :=
  VariableDefinition.mk "TOKEN" "string" true (Some (AnyStr "x")) None false false None.

Definition conflicting : Config.t :=
  Config.mk "0.1" [("development", [API_URL; TOKEN])]
    [TargetDefinition.mk "ts" "generated/ts"].

(** An environment that declares the name [LEVEL] twice. *)
Definition LEVEL_required : VariableDefinition.t :=
  VariableDefinition.mk "LEVEL" "string" true None None false false None.

Definition LEVEL_optional : VariableDefinition.t :=
  VariableDefinition.mk "LEVEL" "string" false None None false false None.

Definition twice : Config.t :=
  Config.mk "0.1" [("development", [LEVEL_required; LEVEL_optional])]
    [TargetDefinition.mk "ts" "generated/ts"].

(** An enum variable without values, and a configuration with it and with
    the variable of unsupported type. *)
Definition CHOICE : VariableDefinition.t :=
  VariableDefinition.mk "CHOICE" "enum" false None None false false None.

Definition flawed : Config.t :=
  Config.mk "0.1" [("development", [API_URL; LEGACY; CHOICE])]
    [TargetDefinition.mk "ts" "generated/ts"].

Definition nl : string := String Str.LF EmptyString.

(** An environment file with a comment, a blank line, padded text and a
    line without [=]. *)
Definition dotenv : string :=
  ("# local settings" ++ nl
   ++ "API_URL = https://example.org " ++ nl
   ++ nl
   ++ "FEATURE_FLAG=yes" ++ nl
   ++ "export" ++ nl)%string.

End Sample.

(** * Properties *)

(** ** Strings and messages *)

Lemma string_app_cons (c : ascii) (s t : string) : String c s ++ t = String c (s ++ t).
Proof. reflexivity. Qed.

Lemma string_app_length (s t : string) :
  String.length (s ++ t) = String.length s + String.length t.
Proof. induction s as [|c s IH]; [done|]. rewrite string_app_cons. simpl. by rewrite IH. Qed.

Lemma string_app_inv_tail (s1 s2 t : string) : s1 ++ t = s2 ++ t → s1 = s2.
Proof.
  revert s2. induction s1 as [|c s1 IH]; intros [|d s2] Heq.
  - done.
  - apply (f_equal String.length) in Heq.
    rewrite !string_app_length in Heq. simpl in Heq. lia.
  - apply (f_equal String.length) in Heq.
    rewrite !string_app_length in Heq. simpl in Heq. lia.
  - rewrite !string_app_cons in Heq. injection Heq as -> Heq. f_equal. by apply IH.
Qed.

Section messages.
Context {rt : Runtime}.

Lemma msg_missing_inj env n1 n2 file :
  msg_missing env n1 file = msg_missing env n2 file → n1 = n2.
Proof.
  unfold msg_missing. intros Heq.
  do 3 apply (inj (String.app _)) in Heq.
  by apply string_app_inv_tail in Heq.
Qed.

Lemma msg_extra_inj env n1 n2 file :
  msg_extra env n1 file = msg_extra env n2 file → n1 = n2.
Proof.
  unfold msg_extra. intros Heq.
  do 3 apply (inj (String.app _)) in Heq.
  by apply string_app_inv_tail in Heq.
Qed.

Lemma msg_missing_not_invalid env n file n' exc :
  msg_missing env n file ≠ msg_invalid env n' exc.
Proof.
  unfold msg_missing, msg_invalid. intros Heq.
  do 2 apply (inj (String.app _)) in Heq. discriminate Heq.
Qed.

Lemma msg_missing_not_extra env n file n' :
  msg_missing env n file ≠ msg_extra env n' file.
Proof.
  unfold msg_missing, msg_extra. intros Heq.
  do 2 apply (inj (String.app _)) in Heq. discriminate Heq.
Qed.

Lemma msg_extra_not_invalid env n file n' exc :
  msg_extra env n file ≠ msg_invalid env n' exc.
Proof.
  unfold msg_extra, msg_invalid. intros Heq.
  do 2 apply (inj (String.app _)) in Heq. discriminate Heq.
Qed.

End messages.

(** ** Loops that append to the error list *)

Local Open Scope list_scope.

Lemma foldl_list_append {A} (f : A → string) (errors : list string) (l : list A) :
  foldl (λ errors x, list_append errors (f x)) errors l = errors ++ (f <$> l).
Proof.
  revert errors. induction l as [|x l IH]; intros errors; simpl.
  - by rewrite app_nil_r.
  - rewrite IH. unfold list_append. by rewrite <-app_assoc.
Qed.

(** ** [sorted] *)

Lemma sorted_elem_of (X : gset string) (k : string) : k ∈ sorted X ↔ k ∈ X.
Proof. unfold sorted. rewrite merge_sort_Permutation. apply elem_of_elements. Qed.

Lemma sorted_NoDup (X : gset string) : NoDup (sorted X).
Proof. unfold sorted. rewrite merge_sort_Permutation. apply NoDup_elements. Qed.

Lemma sorted_StronglySorted (X : gset string) : StronglySorted String.le (sorted X).
Proof. unfold sorted. apply (StronglySorted_merge_sort _). Qed.

Lemma sorted_sorted_listing (X : gset string) (P : string → Prop) :
  (∀ k, k ∈ X ↔ P k) → sorted_listing (sorted X) P.
Proof.
  intros HP. split_and!; [apply sorted_StronglySorted | apply sorted_NoDup |].
  intros k. by rewrite sorted_elem_of.
Qed.

Lemma sorted_empty : sorted ∅ = [].
Proof. unfold sorted. by rewrite elements_empty. Qed.

(** ** Dictionaries *)

Section dict.
Context {V : Type}.
Implicit Types (d : dict V) (k : string) (v : V).

Lemma dict_keys_set k v d :
  dict_keys (dict_set k v d)
  = if bool_decide (k ∈ dict_keys d) then dict_keys d else dict_keys d ++ [k].
Proof.
  induction d as [|[k' v'] d IH]; simpl; [done|].
  destruct (decide (k' = k)) as [->|Hne]; simpl.
  - rewrite bool_decide_eq_true_2; [done | apply elem_of_cons; by left].
  - rewrite IH. destruct (bool_decide_reflect (k ∈ dict_keys d)) as [Hin|Hnin].
    + rewrite bool_decide_eq_true_2; [done | apply elem_of_cons; by right].
    + rewrite bool_decide_eq_false_2; [done|].
      intros [?|?]%elem_of_cons; congruence.
Qed.

Lemma elem_of_dict_keys_set k k' v d :
  k' ∈ dict_keys (dict_set k v d) ↔ k' = k ∨ k' ∈ dict_keys d.
Proof.
  rewrite dict_keys_set. case_bool_decide as Hin.
  - split; [by right | intros [->|?]; done].
  - rewrite elem_of_app, list_elem_of_singleton. tauto.
Qed.

Lemma dict_set_NoDup k v d : NoDup (dict_keys d) → NoDup (dict_keys (dict_set k v d)).
Proof.
  intros Hnd. rewrite dict_keys_set. case_bool_decide as Hin; [done|].
  apply NoDup_app. split_and!; [done | | apply NoDup_singleton].
  intros x Hx ->%list_elem_of_singleton. done.
Qed.

Lemma elem_of_dict_set k v d k' v' :
  NoDup (dict_keys d) →
  (k', v') ∈ dict_set k v d ↔ (k' = k ∧ v' = v) ∨ (k' ≠ k ∧ (k', v') ∈ d).
Proof.
  induction d as [|[k0 v0] d IH]; simpl; intros Hnd.
  - rewrite list_elem_of_singleton. split.
    + intros [= -> ->]. by left.
    + intros [[-> ->]|[_ Hin]]; [done | by apply elem_of_nil in Hin].
  - apply NoDup_cons in Hnd as [Hk0 Hnd].
    destruct (decide (k0 = k)) as [->|Hne].
    + rewrite !elem_of_cons. split.
      * intros [[= -> ->]|Hin]; [by left|]. right. split; [|by right].
        intros ->. apply Hk0. by apply (list_elem_of_fmap_2 fst) in Hin.
      * intros [[-> ->]|[Hne [[= -> ->]|Hin]]]; [by left | done | by right].
    + rewrite !elem_of_cons, IH by done. split.
      * intros [[= -> ->]|[[-> ->]|[? ?]]]; [right; split; [done | by left] | by left |].
        right. split; [done | by right].
      * intros [[-> ->]|[? [[= -> ->]|?]]]; [right; by left | by left |].
        right. right. by split.
Qed.

Lemma dict_lookup_None k d : k ∉ dict_keys d → dict_lookup k d = None.
Proof.
  induction d as [|[k' v'] d IH]; simpl; [done|].
  intros Hnin. apply not_elem_of_cons in Hnin as [? ?].
  destruct (decide (k' = k)); [congruence | by apply IH].
Qed.

Lemma dict_key_unique d k v1 v2 :
  NoDup (dict_keys d) → (k, v1) ∈ d → (k, v2) ∈ d → v1 = v2.
Proof.
  induction d as [|[k0 v0] d IH]; simpl; intros Hnd H1 H2.
  - by apply elem_of_nil in H1.
  - apply NoDup_cons in Hnd as [Hk0 Hnd].
    apply elem_of_cons in H1 as [[= -> ->]|H1];
      apply elem_of_cons in H2 as [[= ?]|H2]; subst; try done.
    + exfalso. apply Hk0. by apply (list_elem_of_fmap_2 fst) in H2.
    + exfalso. apply Hk0. by apply (list_elem_of_fmap_2 fst) in H1.
    + by apply IH.
Qed.

End dict.

(** ** The dict comprehension keeps the last declaration of each name *)

Lemma by_name_snoc (variables : list VariableDefinition.t) (v : VariableDefinition.t) :
  by_name (variables ++ [v]) = dict_set (VariableDefinition.name v) v (by_name variables).
Proof. unfold by_name. by rewrite foldl_app. Qed.

Lemma by_name_NoDup (variables : list VariableDefinition.t) :
  NoDup (dict_keys (by_name variables)).
Proof.
  induction variables as [|v variables IH] using rev_ind.
  - constructor.
  - rewrite by_name_snoc. by apply dict_set_NoDup.
Qed.

Lemma by_name_keys (variables : list VariableDefinition.t) (k : string) :
  k ∈ dict_keys (by_name variables) ↔ k ∈ VariableDefinition.name <$> variables.
Proof.
  induction variables as [|v variables IH] using rev_ind.
  - done.
  - rewrite by_name_snoc, elem_of_dict_keys_set, IH, fmap_app, elem_of_app.
    simpl. rewrite list_elem_of_singleton. tauto.
Qed.

Lemma last_declaration_snoc (d v : VariableDefinition.t) (variables : list VariableDefinition.t) :
  last_declaration d (variables ++ [v])
  ↔ d = v ∨ (VariableDefinition.name d ≠ VariableDefinition.name v
             ∧ last_declaration d variables).
Proof.
  split.
  - intros (pre & post & Heq & Hnin).
    destruct post as [|p post _] using rev_ind.
    + apply app_inj_tail in Heq as [_ ->]. by left.
    + rewrite app_comm_cons, app_assoc in Heq.
      apply app_inj_tail in Heq as [-> ->]. right.
      rewrite fmap_app, not_elem_of_app in Hnin. destruct Hnin as [Hpost Hp].
      split.
      * intros Heq. apply Hp. simpl. rewrite Heq. apply list_elem_of_singleton. done.
      * by exists pre, post.
  - intros [->|[Hne (pre & post & -> & Hnin)]].
    + exists variables, []. split; [done|]. apply not_elem_of_nil.
    + exists pre, (post ++ [v]). split.
      * by rewrite <-app_assoc.
      * rewrite fmap_app, not_elem_of_app. split; [done|].
        simpl. by rewrite list_elem_of_singleton.
Qed.

Lemma elem_of_by_name (variables : list VariableDefinition.t) (k : string)
    (d : VariableDefinition.t) :
  (k, d) ∈ by_name variables ↔ k = VariableDefinition.name d ∧ last_declaration d variables.
Proof.
  induction variables as [|v variables IH] using rev_ind.
  - split.
    + intros Hin. by apply elem_of_nil in Hin.
    + intros [_ (pre & post & Heq & _)]. by destruct pre.
  - rewrite by_name_snoc, elem_of_dict_set, IH, last_declaration_snoc
      by apply by_name_NoDup.
    split.
    + intros [[-> ->]|(Hne & -> & Hlast)]; [by split; [|left]|].
      split; [done|]. right. by split.
    + intros [-> [->|[Hne Hlast]]]; [by left|]. right. by split.
Qed.

(** With distinct names, every declaration is the last one of its name. *)
Lemma NoDup_last_declaration (d : VariableDefinition.t) (variables : list VariableDefinition.t) :
  NoDup (VariableDefinition.name <$> variables) → d ∈ variables → last_declaration d variables.
Proof.
  intros Hnd (pre & post & ->)%list_elem_of_split.
  exists pre, post. split; [done|].
  rewrite fmap_app, fmap_cons in Hnd. apply NoDup_app in Hnd as (_ & _ & Hnd).
  by apply NoDup_cons in Hnd as [? _].
Qed.

(** ** The environment validator *)

Lemma filter_eq_nil {A} `{EqDecision A} (x : A) (l : list A) :
  x ∉ l → filter (λ y, y = x) l = [].
Proof.
  induction l as [|y l IH]; intros Hnin; [done|].
  apply not_elem_of_cons in Hnin as [? ?]. rewrite filter_cons.
  destruct (decide (y = x)); [congruence | auto].
Qed.

Lemma NoDup_filter_eq_length {A} `{EqDecision A} (x : A) (l : list A) :
  NoDup l → x ∈ l → List.length (filter (λ y, y = x) l) = 1.
Proof.
  induction 1 as [|y l Hy Hnd IH]; intros Hin.
  - by apply elem_of_nil in Hin.
  - rewrite filter_cons. destruct (decide (y = x)) as [->|Hne]; simpl.
    + by rewrite filter_eq_nil.
    + apply IH. by apply elem_of_cons in Hin as [->|?].
Qed.

Section validate_env.
Context {rt : Runtime}.
Implicit Types (config : Config.t) (provided : gmap string string).
Implicit Types (env_name env_file : string) (d v : VariableDefinition.t).

Lemma check_declared_app env_name env_file provided errors item :
  check_declared env_name env_file provided errors item
  = errors ++ check_declared env_name env_file provided [] item.
Proof.
  destruct item as [k d]. unfold check_declared, list_append.
  destruct (provided !! k) as [raw|].
  - destruct (_parse_value raw d); simpl; by rewrite ?app_nil_r.
  - destruct (_ && _); simpl; by rewrite ?app_nil_r.
Qed.

Lemma foldl_check_declared env_name env_file provided errors items :
  foldl (check_declared env_name env_file provided) errors items
  = errors ++ (items ≫= check_declared env_name env_file provided []).
Proof.
  revert errors. induction items as [|item items IH]; intros errors; simpl.
  - by rewrite app_nil_r.
  - rewrite IH, check_declared_app. by rewrite <-app_assoc.
Qed.

(** What one iteration over a declared variable adds to the errors. *)
Lemma elem_of_check_declared env_name env_file provided k d e :
  e ∈ check_declared env_name env_file provided [] (k, d)
  ↔ (provided !! k = None ∧ VariableDefinition.required d = true
      ∧ VariableDefinition.default d = None ∧ e = msg_missing env_name k env_file)
    ∨ (∃ raw exc, provided !! k = Some raw ∧ _parse_value raw d = Raise exc
                  ∧ e = msg_invalid env_name k exc).
Proof.
  unfold check_declared, list_append. destruct (provided !! k) as [raw|].
  - destruct (_parse_value raw d) as [a|exc] eqn:Hparse; simpl.
    + rewrite elem_of_nil. split; [done|].
      intros [(? & _)|(raw' & exc' & [= <-] & Hparse' & _)]; congruence.
    + rewrite list_elem_of_singleton. split.
      * intros ->. right. by exists raw, exc.
      * intros [(? & _)|(raw' & exc' & [= <-] & Hparse' & ->)]; [done|].
        congruence.
  - destruct (VariableDefinition.required d); simpl;
      [case_bool_decide as Hdef; simpl|].
    + rewrite list_elem_of_singleton. split.
      * intros ->. by left.
      * intros [(_ & _ & _ & ->)|(? & ? & ? & _)]; done.
    + rewrite elem_of_nil. split; [done|].
      intros [(_ & _ & ? & _)|(? & ? & ? & _)]; done.
    + rewrite elem_of_nil. split; [done|].
      intros [(_ & ? & _)|(? & ? & ? & _)]; done.
Qed.

Lemma validate_env_eq config env_name env_file provided :
  validate_env config env_name env_file provided
  = (by_name (env_variables config env_name)
       ≫= check_declared env_name env_file provided [])
    ++ ((λ k, msg_extra env_name k env_file)
          <$> sorted (dom provided
                      ∖ list_to_set (dict_keys (by_name (env_variables config env_name))))).
Proof.
  unfold validate_env.
  by rewrite (foldl_list_append (λ k, msg_extra env_name k env_file)),
    foldl_check_declared.
Qed.

Lemma elem_of_extras config env_name provided k :
  k ∈ sorted (dom provided
              ∖ list_to_set (dict_keys (by_name (env_variables config env_name))))
  ↔ is_Some (provided !! k) ∧ ¬ declares config env_name k.
Proof.
  rewrite sorted_elem_of, elem_of_difference, elem_of_dom, elem_of_list_to_set,
    by_name_keys. done.
Qed.

Lemma declared_errors_shape config env_name env_file provided e :
  e ∈ by_name (env_variables config env_name)
        ≫= check_declared env_name env_file provided [] →
  ∃ k, declares config env_name k
       ∧ (e = msg_missing env_name k env_file ∨ ∃ exc, e = msg_invalid env_name k exc).
Proof.
  intros ([k d] & He & Hitem)%list_elem_of_bind. exists k. split.
  - apply by_name_keys. by apply (list_elem_of_fmap_2 fst) in Hitem.
  - apply elem_of_check_declared in He
      as [(_ & _ & _ & ->)|(raw & exc & _ & _ & ->)]; [by left | right; by exists exc].
Qed.

End validate_env.

Section validate_env_claims.
Context {rt : Runtime}.
Implicit Types (config : Config.t) (provided : gmap string string).
Implicit Types (env_name env_file : string) (v d : VariableDefinition.t).

(** The "missing required variable" message of a key of [declared] is in the
    error list exactly when the iteration over that key appends it. *)
Lemma validate_env_missing_item config env_name env_file provided k d :
  (k, d) ∈ by_name (env_variables config env_name) →
  msg_missing env_name k env_file ∈ validate_env config env_name env_file provided
  ↔ provided !! k = None
    ∧ VariableDefinition.required d = true
    ∧ VariableDefinition.default d = None.
Proof.
  intros Hitem. rewrite validate_env_eq, elem_of_app, list_elem_of_bind. split.
  - intros [([k' d'] & He & Hitem')|Hextra].
    + apply elem_of_check_declared in He
        as [(Habsent & Hreq & Hdef & Heq)|(raw & exc & _ & _ & Heq)].
      * apply msg_missing_inj in Heq as <-.
        by pose proof (dict_key_unique _ _ _ _ (by_name_NoDup _) Hitem Hitem') as ->.
      * by apply msg_missing_not_invalid in Heq.
    + apply list_elem_of_fmap in Hextra as (k' & Heq & _).
      by apply msg_missing_not_extra in Heq.
  - intros (Habsent & Hreq & Hdef). left. exists (k, d). split; [|done].
    apply elem_of_check_declared. by left.
Qed.


(** In an environment whose names are distinct, every declared variable has
    its "missing required variable" error exactly when it is absent from the
    mapping, required and without default. *)
Lemma validate_env_missing_distinct_names config env_name env_file provided v :
  NoDup (VariableDefinition.name <$> env_variables config env_name) →
  v ∈ env_variables config env_name →
  msg_missing env_name (VariableDefinition.name v) env_file
    ∈ validate_env config env_name env_file provided
  ↔ provided !! VariableDefinition.name v = None
    ∧ VariableDefinition.required v = true
    ∧ VariableDefinition.default v = None.
Proof.
  intros Hnd Hin. apply validate_env_missing_item, elem_of_by_name.
  split; [done | by apply NoDup_last_declaration].
Qed.


(** C4.  The error list is the errors of the declared variables, each a
    "missing" or "invalid" message of a declared name, followed by the
    "extra variable" messages of the provided keys that are not declared
    names: these keys in lexicographic order, each once, so that each has
    exactly one "extra variable" message in the whole list. *)
Theorem validate_env_extra_variables config env_name env_file provided :
  ∃ declared_errors extras : list string,
    validate_env config env_name env_file provided
    = declared_errors ++ ((λ k, msg_extra env_name k env_file) <$> extras)
    ∧ (∀ e, e ∈ declared_errors →
         ∃ k, declares config env_name k
              ∧ (e = msg_missing env_name k env_file
                 ∨ ∃ exc, e = msg_invalid env_name k exc))
    ∧ sorted_listing extras
        (λ k, is_Some (provided !! k) ∧ ¬ declares config env_name k)
    ∧ (∀ k, k ∈ extras →
         List.length (filter (λ e, e = msg_extra env_name k env_file)
                        (validate_env config env_name env_file provided)) = 1).
Proof.
  eexists _, _. split; [apply validate_env_eq|].
  split_and!.
  - apply declared_errors_shape.
  - apply sorted_sorted_listing. intros k. rewrite <-elem_of_extras.
    by rewrite sorted_elem_of.
  - intros k Hk. rewrite validate_env_eq, filter_app, length_app.
    rewrite filter_eq_nil.
    + apply NoDup_filter_eq_length; [|apply list_elem_of_fmap; by exists k].
      apply NoDup_fmap_2; [|apply sorted_NoDup].
      intros k1 k2. apply msg_extra_inj.
    + intros (k' & _ & [Heq | [exc Heq]])%declared_errors_shape.
      * symmetry in Heq. by apply msg_missing_not_extra in Heq.
      * by apply msg_extra_not_invalid in Heq.
Qed.

End validate_env_claims.

(** ** The drift comparator *)

Lemma diff_environments_eq (config : Config.t) (left_env right_env : string) :
  let left := list_to_set (dict_keys (by_name (env_variables config left_env))) in
  let right := list_to_set (dict_keys (by_name (env_variables config right_env))) in
  diff_environments config left_env right_env
  = ((λ n, msg_drift n left_env right_env) <$> sorted (left ∖ right))
    ++ ((λ n, msg_drift n right_env left_env) <$> sorted (right ∖ left)).
Proof.
  simpl. unfold diff_environments.
  by rewrite (foldl_list_append (λ n, msg_drift n right_env left_env)),
    (foldl_list_append (λ n, msg_drift n left_env right_env)).
Qed.

Lemma elem_of_declared_set (config : Config.t) (env_name n : string) :
  n ∈ (list_to_set (dict_keys (by_name (env_variables config env_name))) : gset string)
  ↔ declares config env_name n.
Proof. by rewrite elem_of_list_to_set, by_name_keys. Qed.

(** C2.  The result is one message per name declared in the left
    environment and not in the right one, these names in lexicographic
    order, followed by one message per name declared in the right
    environment and not in the left one, in lexicographic order; only the
    names are compared, and the result is empty when the two environments
    declare the same names. *)
Theorem diff_environments_symmetric_difference
    (config : Config.t) (left_env right_env : string) :
  ∃ only_left only_right : list string,
    diff_environments config left_env right_env
    = ((λ n, msg_drift n left_env right_env) <$> only_left)
      ++ ((λ n, msg_drift n right_env left_env) <$> only_right)
    ∧ sorted_listing only_left
        (λ n, declares config left_env n ∧ ¬ declares config right_env n)
    ∧ sorted_listing only_right
        (λ n, declares config right_env n ∧ ¬ declares config left_env n)
    ∧ ((∀ n, declares config left_env n ↔ declares config right_env n) →
       diff_environments config left_env right_env = []).
Proof.
  eexists _, _. split; [apply diff_environments_eq|]. split_and!.
  - apply sorted_sorted_listing. intros n.
    by rewrite elem_of_difference, !elem_of_declared_set.
  - apply sorted_sorted_listing. intros n.
    by rewrite elem_of_difference, !elem_of_declared_set.
  - intros Hsame. rewrite diff_environments_eq. simpl.
    assert (∀ X Y : gset string, (∀ n, n ∈ X ↔ n ∈ Y) → X ∖ Y = ∅) as Hempty
      by (intros X Y HXY; apply set_eq; intros n;
          rewrite elem_of_difference, HXY, elem_of_empty; tauto).
    rewrite !Hempty, sorted_empty; [done | |];
      intros n; rewrite !elem_of_declared_set; by rewrite Hsame.
Qed.

(** ** Environment names that the configuration does not have *)

Lemma env_variables_unknown (config : Config.t) (unknown : string) :
  unknown ∉ dict_keys (Config.environments config) → env_variables config unknown = [].
Proof. intros Hnin. unfold env_variables, dict_get. by rewrite dict_lookup_None. Qed.

(** C9.  For a name that is not a key of [config.environments], the
    validator and the comparator take the environment as declaring nothing:
    [validate_env] returns only "extra variable" messages, one per provided
    key in lexicographic order, and [diff_environments] returns, whichever
    side the unknown name is on, one message per name the other environment
    declares, saying that it is missing in the unknown one. *)
Theorem unknown_environment {rt : Runtime} (config : Config.t) (unknown : string) :
  unknown ∉ dict_keys (Config.environments config) →
  (∀ env_file provided, ∃ extras,
     validate_env config unknown env_file provided
     = (λ k, msg_extra unknown k env_file) <$> extras
     ∧ sorted_listing extras (λ k, is_Some (provided !! k)))
  ∧ (∀ other, ∃ names,
       diff_environments config other unknown = (λ n, msg_drift n other unknown) <$> names
       ∧ diff_environments config unknown other = (λ n, msg_drift n other unknown) <$> names
       ∧ sorted_listing names (declares config other)).
Proof.
  intros Hunknown. pose proof (env_variables_unknown _ _ Hunknown) as Hnil. split.
  - intros env_file provided. eexists. split.
    + rewrite validate_env_eq, Hnil. simpl. reflexivity.
    + apply sorted_sorted_listing. intros k.
      rewrite elem_of_difference, elem_of_dom. split; [tauto|].
      intros Hk. split; [done | apply not_elem_of_empty].
  - intros other.
    exists (sorted (list_to_set (dict_keys (by_name (env_variables config other))))).
    assert (∀ X : gset string, sorted (X ∖ list_to_set (dict_keys (by_name [])))
                               = sorted X) as Hright.
    { intros X. f_equal. apply difference_empty_L. }
    assert (∀ X : gset string, sorted (list_to_set (dict_keys (by_name [])) ∖ X) = [])
      as Hleft.
    { intros X. rewrite <-sorted_empty. f_equal. apply empty_difference_L. }
    split_and!.
    + rewrite diff_environments_eq. simpl. rewrite Hnil, Hright, Hleft.
      simpl. by rewrite app_nil_r.
    + rewrite diff_environments_eq. simpl. by rewrite Hnil, Hright, Hleft.
    + apply sorted_sorted_listing. intros n. apply elem_of_declared_set.
Qed.

(** ** The schema validator *)

(** Every step of the schema validation only appends to the error list. *)

Lemma list_append_prefix {A} (l : list A) (x : A) : l `prefix_of` list_append l x.
Proof. by exists [x]. Qed.

Lemma variable_validate_prefix (self : VariableDefinition.t) errors env_name :
  errors `prefix_of` VariableDefinition.validate self errors env_name.
Proof.
  unfold VariableDefinition.validate.
  repeat match goal with
         | |- context [if ?b then _ else _] => destruct b
         end;
    repeat (etrans; [|apply list_append_prefix]); done.
Qed.

Lemma variable_validate_required_default (self : VariableDefinition.t) errors env_name :
  VariableDefinition.required self = true →
  VariableDefinition.default self ≠ None →
  VariableDefinition.msg_required_default env_name (VariableDefinition.name self)
    ∈ VariableDefinition.validate self errors env_name.
Proof.
  intros Hreq Hdef. unfold VariableDefinition.validate.
  rewrite Hreq, (bool_decide_eq_true_2 _ Hdef). simpl.
  unfold list_append. apply elem_of_app. right. by left.
Qed.

Lemma validate_var_prefix env st var :
  st.2 `prefix_of` (Config.validate_var env st var).2.
Proof.
  destruct st as [names errors]. simpl.
  etrans; [|apply variable_validate_prefix].
  case_bool_decide; [apply list_append_prefix | done].
Qed.

Lemma foldl_validate_var_prefix env st variables :
  st.2 `prefix_of` (foldl (Config.validate_var env) st variables).2.
Proof.
  revert st. induction variables as [|var variables IH]; intros st; simpl; [done|].
  etrans; [apply validate_var_prefix | apply IH].
Qed.

Lemma foldl_validate_var_required_default env st variables v :
  v ∈ variables →
  VariableDefinition.required v = true →
  VariableDefinition.default v ≠ None →
  VariableDefinition.msg_required_default env (VariableDefinition.name v)
    ∈ (foldl (Config.validate_var env) st variables).2.
Proof.
  intros Hin Hreq Hdef. revert st.
  induction variables as [|var variables IH]; intros st; simpl.
  - by apply elem_of_nil in Hin.
  - apply elem_of_cons in Hin as [<-|Hin]; [|by apply IH].
    eapply elem_of_prefix; [|apply foldl_validate_var_prefix].
    destruct st as [names errors]. simpl.
    by apply variable_validate_required_default.
Qed.

Lemma validate_env_entry_prefix errors entry :
  errors `prefix_of` Config.validate_env_entry errors entry.
Proof. destruct entry as [env variables]. apply (foldl_validate_var_prefix env (∅, errors)). Qed.

Lemma foldl_validate_env_entry_prefix errors entries :
  errors `prefix_of` foldl Config.validate_env_entry errors entries.
Proof.
  revert errors. induction entries as [|entry entries IH]; intros errors; simpl; [done|].
  etrans; [apply validate_env_entry_prefix | apply IH].
Qed.

Lemma config_validate_required_default (config : Config.t) env variables v :
  (env, variables) ∈ Config.environments config →
  v ∈ variables →
  VariableDefinition.required v = true →
  VariableDefinition.default v ≠ None →
  VariableDefinition.msg_required_default env (VariableDefinition.name v)
    ∈ Config.validate config.
Proof.
  intros Hentry Hin Hreq Hdef. unfold Config.validate.
  assert (∀ errors,
    VariableDefinition.msg_required_default env (VariableDefinition.name v)
      ∈ foldl Config.validate_env_entry errors (Config.environments config)) as Hfold.
  { induction (Config.environments config) as [|entry entries IH]; intros errors; simpl.
    - by apply elem_of_nil in Hentry.
    - apply elem_of_cons in Hentry as [<-|Hentry]; [|by apply IH].
      eapply elem_of_prefix; [|apply foldl_validate_env_entry_prefix].
      by apply foldl_validate_var_required_default. }
  destruct (Config.targets config); [|apply Hfold].
  unfold list_append. apply elem_of_app. left. apply Hfold.
Qed.

(** C5.  [ok] is true exactly when the error list is empty; and a
    configuration that has, in some environment, a variable with [required]
    true and [default] set is rejected, with the message that names the
    environment and the variable in the error list. *)
Theorem validate_schema_required_with_default (config : Config.t) :
  ((validate_schema config).1 = true ↔ (validate_schema config).2 = [])
  ∧ ∀ env variables v,
      (env, variables) ∈ Config.environments config →
      v ∈ variables →
      VariableDefinition.required v = true →
      VariableDefinition.default v ≠ None →
      (validate_schema config).1 = false
      ∧ VariableDefinition.msg_required_default env (VariableDefinition.name v)
          ∈ (validate_schema config).2.
Proof.
  unfold validate_schema. simpl. split; [apply bool_decide_eq_true|].
  intros env variables v Hentry Hin Hreq Hdef.
  pose proof (config_validate_required_default _ _ _ _ Hentry Hin Hreq Hdef) as Hmsg.
  split; [|done]. apply bool_decide_eq_false. intros Hnil.
  rewrite Hnil in Hmsg. by apply elem_of_nil in Hmsg.
Qed.

(** ** The type-coercion engine *)

Local Open Scope string_scope.

Lemma substring_skip (p t : string) (m : nat) :
  substring (String.length p) m (p ++ t) = substring 0 m t.
Proof. induction p as [|c p IH]; [done|]. by rewrite string_app_cons. Qed.

Lemma substring_take (p t : string) : substring 0 (String.length p) (p ++ t) = p.
Proof.
  induction p as [|c p IH]; [by destruct t|].
  rewrite string_app_cons. simpl. by rewrite IH.
Qed.

Lemma endswith_app (p : string) : Str.endswith (p ++ "s") "s" = true.
Proof.
  unfold Str.endswith. rewrite string_app_length.
  change (String.length "s") with 1%nat.
  replace (String.length p + 1 - 1)%nat with (String.length p) by lia.
  rewrite substring_skip. apply andb_true_iff. split; [|done].
  apply Nat.leb_le. lia.
Qed.

Lemma drop_last_app (p : string) : Str.drop_last (p ++ "s") = p.
Proof.
  unfold Str.drop_last. rewrite string_app_length.
  change (String.length "s") with 1%nat.
  replace (String.length p + 1 - 1)%nat with (String.length p) by lia.
  apply substring_take.
Qed.

Lemma endswith_cons (c c' : ascii) (r : string) :
  Str.endswith (String c (String c' r)) "s" = Str.endswith (String c' r) "s".
Proof. unfold Str.endswith. simpl. by rewrite Nat.sub_0_r. Qed.

Lemma endswith_inv (raw : string) :
  Str.endswith raw "s" = true → ∃ p, raw = p ++ "s".
Proof.
  induction raw as [|c r IH]; [done|]. destruct r as [|c' r].
  - unfold Str.endswith. simpl. destruct (Ascii.eqb_spec c "s") as [->|]; [|done].
    by exists EmptyString.
  - rewrite endswith_cons. intros [p ->]%IH. by exists (String c p).
Qed.


Lemma result_map_fails {A B} (f : A → B) (r : result A) :
  fails (result_map f r) ↔ fails r.
Proof. destruct r; simpl; split; intros [? ?]; try done; by eexists. Qed.

Section parse.
Context {rt : Runtime}.
Implicit Types (raw : string) (d : VariableDefinition.t).

(** Follows the chain of comparisons of [_parse_value] to the branch of
    the type named by the hypothesis [Htype]. *)
Ltac dispatch Htype := unfold _parse_value; rewrite Htype; cbv zeta.

(** C1.  A boolean variable parses every string: the result is [True]
    exactly when the lowercased string is one of the five accepted texts,
    and [False] otherwise. *)
Theorem parse_boolean raw d :
  VariableDefinition.type d = "boolean" →
  ∃ b, _parse_value raw d = Ok (VBool b)
       ∧ (b = true ↔ Str.lower raw ∈ ["true"; "1"; "yes"; "y"; "on"])
       ∧ (b = false ↔ Str.lower raw ∉ ["true"; "1"; "yes"; "y"; "on"]).
Proof.
  intros Htype. exists (_parse_bool raw). split_and!.
  - by dispatch Htype.
  - apply bool_decide_eq_true.
  - apply bool_decide_eq_false.
Qed.

(** C6.  For an enum variable with a non-empty list of allowed values,
    parsing succeeds exactly for the listed strings, compared as they are,
    and returns the string; any other string fails, with a message that
    has the list of allowed values in it. *)
Theorem parse_enum raw d allowed :
  VariableDefinition.type d = "enum" →
  VariableDefinition.enum d = Some allowed →
  allowed ≠ [] →
  (succeeds (_parse_value raw d) ↔ raw ∈ allowed)
  ∧ (raw ∈ allowed → _parse_value raw d = Ok (VStr raw))
  ∧ (raw ∉ allowed →
     _parse_value raw d
     = Raise ("Value '" ++ raw ++ "' not allowed; expected one of "
              ++ Str.repr_list allowed ++ ".")).
Proof.
  intros Htype Henum Hne.
  assert (_parse_value raw d
          = if bool_decide (raw ∈ allowed) then Ok (VStr raw)
            else Raise (msg_not_allowed raw allowed)) as ->.
  { dispatch Htype. simpl. rewrite Henum. by destruct allowed. }
  case_bool_decide as Hin; split_and!; try done.
  - split; [done | by eexists].
  - split; [by intros [? ?] | done].
Qed.


(** C8.  For a duration variable, a string that ends with the character
    [s] is parsed by [float] without that last character, and a string that
    does not is parsed by [float] whole; either way the parse fails exactly
    when [float] fails. *)
Theorem parse_duration raw d :
  VariableDefinition.type d = "duration" →
  (∀ prefix, raw = prefix ++ "s" →
     _parse_value raw d = result_map VFloat (float prefix)
     ∧ (fails (_parse_value raw d) ↔ fails (float prefix)))
  ∧ ((∀ prefix, raw ≠ prefix ++ "s") →
     _parse_value raw d = result_map VFloat (float raw)
     ∧ (fails (_parse_value raw d) ↔ fails (float raw))).
Proof.
  intros Htype.
  assert (_parse_value raw d
          = if Str.endswith raw "s" then result_map VFloat (float (Str.drop_last raw))
            else result_map VFloat (float raw)) as -> by by dispatch Htype.
  split.
  - intros prefix ->. rewrite endswith_app, drop_last_app.
    split; [done | apply result_map_fails].
  - intros Hnot. destruct (Str.endswith raw "s") eqn:Hends.
    + apply endswith_inv in Hends as [p ->]. by destruct (Hnot p).
    + split; [done | apply result_map_fails].
Qed.

(** C10.  For a type that is none of the seven supported names, the chain
    of comparisons falls through: the string is returned as it is, and
    nothing is raised. *)
Theorem parse_unrecognized_type raw d :
  VariableDefinition.type d
    ∉ ["string"; "number"; "boolean"; "enum"; "url"; "duration"; "json"] →
  _parse_value raw d = Ok (VStr raw).
Proof.
  intros Htype. unfold _parse_value. cbv zeta.
  repeat (apply not_elem_of_cons in Htype as [? Htype]).
  repeat (destruct (decide _) as [?|_]; [done|]). done.
Qed.

End parse.

(** * Further properties of the code *)

(** ** More of the type-coercion engine *)

Lemma prefix_app (p s : string) : String.prefix p s = true ↔ ∃ rest, s = (p ++ rest)%string.
Proof.
  revert s. induction p as [|c p IH]; intros s.
  - split; [intros _; by exists s | by destruct s].
  - destruct s as [|c' s]; simpl.
    + split; [done | by intros [rest ?]].
    + destruct (Ascii.ascii_dec c c') as [->|Hne].
      * rewrite IH. split; intros [rest Heq]; exists rest.
        -- by rewrite string_app_cons, Heq.
        -- rewrite string_app_cons in Heq. by injection Heq.
      * split; [done|]. intros [rest Heq].
        rewrite string_app_cons in Heq. injection Heq as ? ?. congruence.
Qed.

Section parse_more.
Context {rt : Runtime}.
Implicit Types (raw : string) (d : VariableDefinition.t).
Local Open Scope string_scope.

(** X1.  A url variable accepts exactly the strings that start with
    [http://] or [https://], and returns them unchanged; every other string
    fails with the fixed message. *)
Theorem parse_url raw d :
  VariableDefinition.type d = "url" →
  (succeeds (_parse_value raw d)
   ↔ ∃ rest, raw = "http://" ++ rest ∨ raw = "https://" ++ rest)
  ∧ (succeeds (_parse_value raw d) → _parse_value raw d = Ok (VStr raw))
  ∧ (¬ succeeds (_parse_value raw d) →
     _parse_value raw d = Raise "URL must start with http:// or https://").
Proof.
  intros Htype.
  assert (_parse_value raw d
          = if negb (Str.startswith raw "http://" || Str.startswith raw "https://")
            then Raise msg_bad_url else Ok (VStr raw)) as ->
    by (unfold _parse_value; rewrite Htype; done).
  unfold Str.startswith.
  destruct (String.prefix "http://" raw) eqn:Hhttp;
    [|destruct (String.prefix "https://" raw) eqn:Hhttps]; simpl.
  - apply prefix_app in Hhttp as [rest ->]. split_and!; try done.
    + split; [intros _; exists rest; by left | by eexists].
    + intros []. by eexists.
  - apply prefix_app in Hhttps as [rest ->]. split_and!; try done.
    + split; [intros _; exists rest; by right | by eexists].
    + intros []. by eexists.
  - split_and!; try done; [|by intros [? ?]].
    split; [by intros [? ?]|]. intros [rest [->| ->]].
    + assert (String.prefix "http://" ("http://" ++ rest) = true) as Heq
        by (apply prefix_app; by eexists).
      congruence.
    + assert (String.prefix "https://" ("https://" ++ rest) = true) as Heq
        by (apply prefix_app; by eexists).
      congruence.
Qed.

(** X2.  An enum variable whose list of allowed values is absent or empty
    accepts every string and returns it unchanged. *)
Theorem parse_enum_unconstrained raw d :
  VariableDefinition.type d = "enum" →
  VariableDefinition.enum d = None ∨ VariableDefinition.enum d = Some [] →
  _parse_value raw d = Ok (VStr raw).
Proof.
  intros Htype Henum. unfold _parse_value. rewrite Htype. cbv zeta. simpl.
  by destruct Henum as [-> | ->].
Qed.

(** X3.  Parsing fails only for the types number, enum, url, duration and
    json: a string, boolean or unsupported type never raises. *)
Theorem parse_fails_only raw d :
  fails (_parse_value raw d) →
  VariableDefinition.type d ∈ ["number"; "enum"; "url"; "duration"; "json"].
Proof.
  unfold _parse_value. cbv zeta. intros [msg Hfail].
  repeat match goal with
         | H : context [decide (VariableDefinition.type d = ?s)] |- _ =>
             destruct (decide (VariableDefinition.type d = s)) as [->|?]
         end;
    try discriminate Hfail;
    repeat (first [by left | right]).
Qed.


End parse_more.

(** ** More of the environment validator *)

Local Open Scope list_scope.

Lemma dict_set_fresh {V} (k : string) (v : V) (d : dict V) :
  k ∉ dict_keys d → dict_set k v d = d ++ [(k, v)].
Proof.
  induction d as [|[k' v'] d IH]; simpl; [done|].
  intros [Hne Hnin]%not_elem_of_cons.
  destruct (decide (k' = k)); [congruence|]. by rewrite IH.
Qed.

(** With distinct names the dict comprehension lists the variables in
    declaration order. *)
Lemma by_name_distinct (variables : list VariableDefinition.t) :
  NoDup (VariableDefinition.name <$> variables) →
  by_name variables = (λ v, (VariableDefinition.name v, v)) <$> variables.
Proof.
  induction variables as [|v variables IH] using rev_ind; [done|].
  rewrite fmap_app. intros (Hnd & Hfresh & _)%NoDup_app.
  rewrite by_name_snoc, dict_set_fresh.
  - rewrite IH by done. by rewrite fmap_app.
  - rewrite by_name_keys. intros Hin. apply (Hfresh _ Hin). by left.
Qed.

Section validate_env_more.
Context {rt : Runtime}.
Implicit Types (config : Config.t) (provided : gmap string string).
Implicit Types (env_name env_file : string) (v d : VariableDefinition.t).

(** One iteration adds nothing exactly when the mapping meets the
    declaration. *)
Lemma check_declared_nil env_name env_file provided v :
  check_declared env_name env_file provided [] (VariableDefinition.name v, v) = []
  ↔ satisfies provided v.
Proof.
  unfold check_declared, satisfies, list_append.
  destruct (provided !! VariableDefinition.name v) as [raw|].
  - destruct (_parse_value raw v) as [a|exc]; simpl.
    + split; [intros _; by eexists | done].
    + split; [done | by intros [? ?]].
  - destruct (VariableDefinition.required v); simpl.
    + case_bool_decide as Hdef; simpl.
      * split; [done | intros [?|?]; done].
      * split; [by right | done].
    + split; [by left | done].
Qed.

Lemma validate_env_nil_items config env_name env_file provided :
  validate_env config env_name env_file provided = []
  ↔ (∀ k, is_Some (provided !! k) → declares config env_name k)
    ∧ Forall (λ item, check_declared env_name env_file provided [] item = [])
        (by_name (env_variables config env_name)).
Proof.
  rewrite validate_env_eq, app_nil, (and_comm (_ = [])).
  apply Morphisms_Prop.and_iff_morphism.
  - split.
    + intros Hnil%fmap_nil_inv k Hk. unfold declares.
      destruct (decide (k ∈ VariableDefinition.name <$> env_variables config env_name))
        as [|Hnot]; [done|].
      exfalso. apply (not_elem_of_nil k). rewrite <-Hnil. by apply elem_of_extras.
    + intros Hkeys.
      assert (sorted (dom provided
                      ∖ list_to_set (dict_keys (by_name (env_variables config env_name))))
              = []) as ->; [|done].
      apply elem_of_nil_inv. intros k [Hk Hnot]%elem_of_extras. by apply Hnot, Hkeys.
  - rewrite Forall_forall. split.
    + intros Hnil item Hitem. apply elem_of_nil_inv. intros e He.
      apply (not_elem_of_nil e). rewrite <-Hnil. apply list_elem_of_bind. by exists item.
    + intros Hall. apply elem_of_nil_inv. intros e (item & He & Hitem)%list_elem_of_bind.
      rewrite (Hall item Hitem) in He. by apply elem_of_nil in He.
Qed.

(** X5.  The validator returns no error exactly when every provided key is
    a declared name and the mapping meets the last declaration of every
    name: bound to a value that parses, or unbound and optional or with a
    default. *)
Theorem validate_env_nil_iff config env_name env_file provided :
  validate_env config env_name env_file provided = []
  ↔ (∀ k, is_Some (provided !! k) → declares config env_name k)
    ∧ (∀ v, last_declaration v (env_variables config env_name) → satisfies provided v).
Proof.
  rewrite validate_env_nil_items, Forall_forall.
  split; intros [Hkeys Hitems]; (split; [done|]).
  - intros v Hlast. apply (check_declared_nil env_name env_file).
    apply Hitems. by apply elem_of_by_name.
  - intros [k d] [-> Hlast]%elem_of_by_name. apply check_declared_nil. by apply Hitems.
Qed.

(** X6.  A value that fails to parse is reported: when the mapping binds
    the name of [v], the last declaration of that name, to a value on
    which [_parse_value] raises, the error list has the "invalid" message
    of that name with the text of the exception. *)
Theorem validate_env_invalid config env_name env_file provided v raw exc :
  last_declaration v (env_variables config env_name) →
  provided !! VariableDefinition.name v = Some raw →
  _parse_value raw v = Raise exc →
  msg_invalid env_name (VariableDefinition.name v) exc
    ∈ validate_env config env_name env_file provided.
Proof.
  intros Hlast Hk Hparse.
  rewrite validate_env_eq, elem_of_app, list_elem_of_bind. left.
  exists (VariableDefinition.name v, v). split; [|by apply elem_of_by_name].
  apply elem_of_check_declared. right. by exists raw, exc.
Qed.

(** X7.  When the names of the environment are distinct, the errors of the
    declared variables come in declaration order, one iteration of the loop
    per declared variable, before the extra-variable messages. *)
Theorem validate_env_declaration_order config env_name env_file provided :
  NoDup (VariableDefinition.name <$> env_variables config env_name) →
  ∃ extras,
    validate_env config env_name env_file provided
    = (env_variables config env_name
         ≫= λ v, check_declared env_name env_file provided []
                   (VariableDefinition.name v, v))
      ++ ((λ k, msg_extra env_name k env_file) <$> extras)
    ∧ sorted_listing extras
        (λ k, is_Some (provided !! k) ∧ ¬ declares config env_name k).
Proof.
  intros Hnd. eexists. split.
  - rewrite validate_env_eq, by_name_distinct, list_fmap_bind by done. reflexivity.
  - apply sorted_sorted_listing. intros k.
    rewrite <-by_name_distinct by done. rewrite <-elem_of_extras.
    by rewrite sorted_elem_of.
Qed.

(** X8.  Against a file that does not exist, the validator reports, when
    the names of the environment are distinct, exactly the variables that
    are required and have no default, as missing and in declaration order. *)
Theorem validate_env_file_missing config env_name env_file :
  NoDup (VariableDefinition.name <$> env_variables config env_name) →
  validate_env_file config env_name env_file None
  = (λ v, msg_missing env_name (VariableDefinition.name v) env_file)
      <$> filter (λ v, VariableDefinition.required v = true
                       ∧ VariableDefinition.default v = None)
            (env_variables config env_name).
Proof.
  intros Hnd. unfold validate_env_file, load_env_file.
  rewrite validate_env_eq, by_name_distinct, list_fmap_bind by done.
  rewrite dom_empty_L, empty_difference_L, sorted_empty, app_nil_r.
  induction (env_variables config env_name) as [|v vars IH]; [done|].
  rewrite bind_cons, filter_cons. apply NoDup_cons in Hnd as [_ Hnd].
  rewrite (IH Hnd). unfold compose, check_declared, list_append. rewrite lookup_empty.
  destruct (decide (VariableDefinition.required v = true
                    ∧ VariableDefinition.default v = None)) as [[-> ->]|Hnot]; [done|].
  destruct (VariableDefinition.required v); [|done].
  case_bool_decide; [tauto | done].
Qed.

End validate_env_more.

(** ** More of the schema validator *)

Lemma variable_validate_app (self : VariableDefinition.t) errors env_name :
  VariableDefinition.validate self errors env_name
  = errors ++ VariableDefinition.validate self [] env_name.
Proof.
  unfold VariableDefinition.validate, list_append.
  repeat match goal with
         | |- context [if ?b then _ else _] => destruct b
         end;
    simpl; by rewrite <-?app_assoc, ?app_nil_r.
Qed.

Lemma variable_validate_head (self : VariableDefinition.t) env_name e :
  e ∈ VariableDefinition.validate self [] env_name → ∃ rest, e = String "[" rest.
Proof.
  unfold VariableDefinition.validate, list_append.
  repeat match goal with
         | |- context [if ?b then _ else _] => destruct b
         end;
    simpl; rewrite ?elem_of_cons, ?elem_of_nil; intros Hin;
    repeat destruct Hin as [->|Hin]; try done; by eexists.
Qed.

Lemma variable_validate_nil (self : VariableDefinition.t) env_name :
  VariableDefinition.validate self [] env_name = [] ↔ variable_ok self.
Proof.
  unfold VariableDefinition.validate, variable_ok, list_append.
  destruct self as [n ty req def descr sec dep en]; simpl.
  assert (VariableDefinition.enum_truthy en = true ↔ ∃ x xs, en = Some (x :: xs)) as Hen.
  { destruct en as [[|x xs]|]; simpl; split; try done; try (by intros (? & ? & ?)).
    intros _. by exists x, xs. }
  destruct (bool_decide_reflect (ty ∈ SUPPORTED_TYPES)) as [Hty|Hty];
    destruct (bool_decide_reflect (ty = "enum")) as [Henum|Henum];
    destruct (VariableDefinition.enum_truthy en) eqn:Htruthy;
    destruct req;
    destruct (bool_decide_reflect (def ≠ None)) as [Hdef|Hdef];
    simpl; split;
    try (intros Heq; discriminate Heq);
    try (intros _; split_and!;
         [done | intros ?; by apply Hen | first [tauto | by intros [? ?]]]);
    try (intros (Hty' & Henum' & Hboth); exfalso;
         first [ by apply Hty
               | by apply Hboth
               | apply Henum', Hen in Henum; congruence ]);
    try done.
Qed.

Lemma validate_var_eq env names errors var :
  Config.validate_var env (names, errors) var
  = ({[VariableDefinition.name var]} ∪ names,
     errors
     ++ ((if bool_decide (VariableDefinition.name var ∈ names)
          then [Config.msg_duplicate env (VariableDefinition.name var)] else [])
         ++ VariableDefinition.validate var [] env)).
Proof.
  unfold Config.validate_var, list_append. f_equal.
  rewrite variable_validate_app. case_bool_decide; simpl.
  - by rewrite <-app_assoc.
  - done.
Qed.

Lemma foldl_validate_var_shift env names errors variables :
  foldl (Config.validate_var env) (names, errors) variables
  = ((foldl (Config.validate_var env) (names, []) variables).1,
     errors ++ (foldl (Config.validate_var env) (names, []) variables).2).
Proof.
  revert names errors. induction variables as [|v vs IH]; intros names errors.
  - simpl. by rewrite app_nil_r.
  - change (foldl (Config.validate_var env) (names, errors) (v :: vs))
      with (foldl (Config.validate_var env)
              (Config.validate_var env (names, errors) v) vs).
    change (foldl (Config.validate_var env) (names, []) (v :: vs))
      with (foldl (Config.validate_var env)
              (Config.validate_var env (names, []) v) vs).
    rewrite !validate_var_eq, IH. rewrite (IH _ ([] ++ _)). simpl.
    by rewrite <-app_assoc.
Qed.

Lemma foldl_validate_var_cons env names var variables :
  (foldl (Config.validate_var env) (names, []) (var :: variables)).2
  = (if bool_decide (VariableDefinition.name var ∈ names)
     then [Config.msg_duplicate env (VariableDefinition.name var)] else [])
    ++ VariableDefinition.validate var [] env
    ++ (foldl (Config.validate_var env)
          ({[VariableDefinition.name var]} ∪ names, []) variables).2.
Proof.
  change (foldl (Config.validate_var env) (names, []) (var :: variables))
    with (foldl (Config.validate_var env)
            (Config.validate_var env (names, []) var) variables).
  rewrite validate_var_eq, foldl_validate_var_shift. simpl.
  by rewrite <-app_assoc.
Qed.

Lemma foldl_validate_var_nil env names variables :
  (foldl (Config.validate_var env) (names, []) variables).2 = []
  ↔ (∀ v, v ∈ variables → VariableDefinition.name v ∉ names)
    ∧ NoDup (VariableDefinition.name <$> variables)
    ∧ ∀ v, v ∈ variables → variable_ok v.
Proof.
  revert names. induction variables as [|var vs IH]; intros names.
  - simpl. split; [intros _|done]. split_and!; [|constructor|];
      intros v Hv; by apply elem_of_nil in Hv.
  - rewrite foldl_validate_var_cons, !app_nil, IH, variable_validate_nil, fmap_cons,
      NoDup_cons.
    split.
    + intros (Hdup & Hok & Hnames & Hnd & Hoks).
      assert (VariableDefinition.name var ∉ names) as Hfresh
        by (by case_bool_decide).
      split_and!.
      * intros v [->|Hv]%elem_of_cons; [done|].
        intros Hin. apply (Hnames v Hv), elem_of_union. by right.
      * intros (v & Heq & Hv)%list_elem_of_fmap.
        apply (Hnames v Hv), elem_of_union. left. by apply elem_of_singleton.
      * done.
      * intros v [->|Hv]%elem_of_cons; auto.
    + intros (Hnames & [Hfresh Hnd] & Hoks). split_and!.
      * rewrite bool_decide_eq_false_2; [done|]. apply Hnames. by left.
      * apply Hoks. by left.
      * intros v Hv [Heq%elem_of_singleton|Hin]%elem_of_union.
        -- apply Hfresh. rewrite <-Heq. by apply list_elem_of_fmap_2.
        -- apply (Hnames v); [by right | done].
      * done.
      * intros v Hv. apply Hoks. by right.
Qed.

Lemma validate_env_entry_app errors entry :
  Config.validate_env_entry errors entry = errors ++ Config.validate_env_entry [] entry.
Proof.
  destruct entry as [env variables]. unfold Config.validate_env_entry.
  by rewrite foldl_validate_var_shift.
Qed.

Lemma foldl_validate_env_entry errors entries :
  foldl Config.validate_env_entry errors entries
  = errors ++ (entries ≫= Config.validate_env_entry []).
Proof.
  revert errors. induction entries as [|entry entries IH]; intros errors.
  - simpl. by rewrite app_nil_r.
  - rewrite bind_cons.
    change (foldl Config.validate_env_entry errors (entry :: entries))
      with (foldl Config.validate_env_entry
              (Config.validate_env_entry errors entry) entries).
    rewrite IH, validate_env_entry_app. by rewrite app_assoc.
Qed.

Lemma config_validate_eq (config : Config.t) :
  Config.validate config
  = (Config.environments config ≫= Config.validate_env_entry [])
    ++ (if decide (Config.targets config = []) then [Config.msg_no_target] else []).
Proof.
  unfold Config.validate, list_append. rewrite foldl_validate_env_entry. simpl.
  destruct (Config.targets config); simpl; by rewrite ?app_nil_r.
Qed.

Lemma config_validate_nil_iff (config : Config.t) :
  Config.validate config = [] ↔ schema_ok config.
Proof.
  unfold schema_ok. rewrite config_validate_eq, app_nil. split.
  - intros [Henvs Htargets]. split; [by destruct (decide _)|].
    intros env variables Hentry.
    assert (Config.validate_env_entry [] (env, variables) = []) as Hnil.
    { apply elem_of_nil_inv. intros e He. apply (not_elem_of_nil e).
      rewrite <-Henvs. apply list_elem_of_bind. by exists (env, variables). }
    apply foldl_validate_var_nil in Hnil as (_ & Hnd & Hoks). done.
  - intros [Htargets Henvs]. split; [|by rewrite decide_False].
    apply elem_of_nil_inv. intros e ([env variables] & He & Hentry)%list_elem_of_bind.
    destruct (Henvs env variables Hentry) as [Hnd Hoks].
    assert (Config.validate_env_entry [] (env, variables) = []) as Hnil.
    { apply foldl_validate_var_nil. split_and!; [|done..].
      intros v _. apply not_elem_of_empty. }
    rewrite Hnil in He. by apply elem_of_nil in He.
Qed.

(** X9.  The schema check passes exactly when the configuration has a
    target and, in every environment, the names are distinct, every type is
    supported, every enum variable has a non-empty list of values and no
    variable is required and has a default. *)
Theorem validate_schema_ok_iff (config : Config.t) :
  (validate_schema config).1 = true ↔ schema_ok config.
Proof.
  unfold validate_schema. cbn [fst]. rewrite bool_decide_eq_true.
  apply config_validate_nil_iff.
Qed.

(** An error of one environment is the duplicate message of a variable whose
    name was seen before it, or an error of the rules for one variable. *)
Lemma elem_of_foldl_validate_var env names variables e :
  e ∈ (foldl (Config.validate_var env) (names, []) variables).2
  ↔ ∃ pre v post,
      variables = pre ++ v :: post
      ∧ ((VariableDefinition.name v ∈ names ∪ list_to_set (VariableDefinition.name <$> pre)
          ∧ e = Config.msg_duplicate env (VariableDefinition.name v))
         ∨ e ∈ VariableDefinition.validate v [] env).
Proof.
  revert names. induction variables as [|var vs IH]; intros names.
  - simpl. split; [by intros ?%elem_of_nil|]. intros (pre & v & post & Heq & _).
    by destruct pre.
  - rewrite foldl_validate_var_cons, !elem_of_app, IH. split.
    + intros [Hdup|[Hvar|(pre & v & post & -> & Hcase)]].
      * exists [], var, vs. split; [done|]. left.
        case_bool_decide as Hin; [|by apply elem_of_nil in Hdup].
        apply list_elem_of_singleton in Hdup. split; [|done].
        apply elem_of_union. by left.
      * exists [], var, vs. split; [done|]. by right.
      * exists (var :: pre), v, post. split; [done|].
        destruct Hcase as [[Hin ->]|Hv]; [left|by right]. split; [|done].
        rewrite fmap_cons, list_to_set_cons.
        rewrite !elem_of_union in Hin. rewrite !elem_of_union. tauto.
    + intros (pre & v & post & Heq & Hcase). destruct pre as [|var' pre].
      * injection Heq as <- <-. destruct Hcase as [[Hin ->]|Hv]; [left|right; by left].
        rewrite bool_decide_eq_true_2; [by left|].
        apply elem_of_union in Hin as [?|Hin]; [done|].
        by apply elem_of_empty in Hin.
      * injection Heq as <- ->. right. right. exists pre, v, post. split; [done|].
        destruct Hcase as [[Hin ->]|Hv]; [left|by right]. split; [|done].
        rewrite fmap_cons, list_to_set_cons in Hin.
        rewrite !elem_of_union in Hin. rewrite !elem_of_union. tauto.
Qed.

Lemma elem_of_config_validate (config : Config.t) e :
  e ∈ Config.validate config
  ↔ (∃ env variables pre v post,
       (env, variables) ∈ Config.environments config
       ∧ variables = pre ++ v :: post
       ∧ ((VariableDefinition.name v ∈ VariableDefinition.name <$> pre
           ∧ e = Config.msg_duplicate env (VariableDefinition.name v))
          ∨ e ∈ VariableDefinition.validate v [] env))
    ∨ (Config.targets config = [] ∧ e = Config.msg_no_target).
Proof.
  rewrite config_validate_eq, elem_of_app, list_elem_of_bind.
  apply Morphisms_Prop.or_iff_morphism.
  - split.
    + intros ([env variables] & He & Hentry).
      apply elem_of_foldl_validate_var in He as (pre & v & post & Heq & Hcase).
      exists env, variables, pre, v, post. split_and!; [done..|].
      destruct Hcase as [[Hin ->]|Hv]; [left|by right]. split; [|done].
      apply elem_of_union in Hin as [Hin|Hin]; [by apply elem_of_empty in Hin|].
      by apply elem_of_list_to_set in Hin.
    + intros (env & variables & pre & v & post & Hentry & Heq & Hcase).
      exists (env, variables). split; [|done].
      apply elem_of_foldl_validate_var. exists pre, v, post. split; [done|].
      destruct Hcase as [[Hin ->]|Hv]; [left|by right]. split; [|done].
      apply elem_of_union. right. by apply elem_of_list_to_set.
  - destruct (decide (Config.targets config = [])) as [Heq|Hne].
    + rewrite list_elem_of_singleton. tauto.
    + rewrite elem_of_nil. tauto.
Qed.

Lemma validate_schema_rejects (config : Config.t) e :
  e ∈ (validate_schema config).2 → (validate_schema config).1 = false.
Proof.
  unfold validate_schema. simpl. intros He. apply bool_decide_eq_false.
  intros Hnil. rewrite Hnil in He. by apply elem_of_nil in He.
Qed.

(** X10.  A name that an environment declares again is reported: the schema
    check fails with the "declared more than once" message of the
    environment and the name. *)
Theorem validate_schema_duplicate (config : Config.t) env pre w post :
  (env, pre ++ w :: post) ∈ Config.environments config →
  VariableDefinition.name w ∈ VariableDefinition.name <$> pre →
  (validate_schema config).1 = false
  ∧ Config.msg_duplicate env (VariableDefinition.name w) ∈ (validate_schema config).2.
Proof.
  intros Hentry Hin.
  assert (Config.msg_duplicate env (VariableDefinition.name w)
            ∈ (validate_schema config).2) as Hmsg.
  { apply elem_of_config_validate. left.
    exists env, (pre ++ w :: post), pre, w, post. split_and!; [done..|]. by left. }
  split; [by eapply validate_schema_rejects | done].
Qed.

(** X11.  A variable whose type is not one of the seven supported names is
    reported: the schema check fails with the "unsupported type" message of
    the environment, the variable and the type. *)
Theorem validate_schema_unsupported_type (config : Config.t) env variables v :
  (env, variables) ∈ Config.environments config →
  v ∈ variables →
  VariableDefinition.type v ∉ SUPPORTED_TYPES →
  (validate_schema config).1 = false
  ∧ VariableDefinition.msg_unsupported_type env (VariableDefinition.name v)
      (VariableDefinition.type v)
      ∈ (validate_schema config).2.
Proof.
  intros Hentry (pre & post & ->)%list_elem_of_split Htype.
  assert (VariableDefinition.msg_unsupported_type env (VariableDefinition.name v)
            (VariableDefinition.type v) ∈ (validate_schema config).2) as Hmsg.
  { apply elem_of_config_validate. left.
    exists env, (pre ++ v :: post), pre, v, post. split_and!; [done..|]. right.
    rewrite variable_validate_app. apply elem_of_app. right.
    unfold VariableDefinition.validate, list_append.
    rewrite (bool_decide_eq_false_2 _ Htype).
    repeat match goal with
           | |- context [if ?b then _ else _] => destruct b
           end; simpl; rewrite !elem_of_cons; tauto. }
  split; [by eapply validate_schema_rejects | done].
Qed.

(** X12.  An enum variable whose list of values is absent or empty is
    reported: the schema check fails with the "enum values are empty"
    message of the environment and the variable. *)
Theorem validate_schema_empty_enum (config : Config.t) env variables v :
  (env, variables) ∈ Config.environments config →
  v ∈ variables →
  VariableDefinition.type v = "enum" →
  VariableDefinition.enum v = None ∨ VariableDefinition.enum v = Some [] →
  (validate_schema config).1 = false
  ∧ VariableDefinition.msg_empty_enum env (VariableDefinition.name v)
      ∈ (validate_schema config).2.
Proof.
  intros Hentry (pre & post & ->)%list_elem_of_split Htype Henum.
  assert (VariableDefinition.msg_empty_enum env (VariableDefinition.name v)
            ∈ (validate_schema config).2) as Hmsg.
  { apply elem_of_config_validate. left.
    exists env, (pre ++ v :: post), pre, v, post. split_and!; [done..|]. right.
    unfold VariableDefinition.validate, list_append.
    rewrite (bool_decide_eq_true_2 _ Htype).
    assert (VariableDefinition.enum_truthy (VariableDefinition.enum v) = false) as ->
      by (by destruct Henum as [-> | ->]).
    simpl.
    repeat match goal with
           | |- context [if ?b then _ else _] => destruct b
           end; simpl; rewrite !elem_of_cons; tauto. }
  split; [by eapply validate_schema_rejects | done].
Qed.

(** X13.  The "at least one generation target" message is in the error
    list exactly when the list of targets is empty, and then it is the last
    error. *)
Theorem validate_schema_no_target (config : Config.t) :
  (Config.msg_no_target ∈ (validate_schema config).2 ↔ Config.targets config = [])
  ∧ (Config.targets config = [] →
     ∃ errors, (validate_schema config).2 = errors ++ [Config.msg_no_target]).
Proof.
  unfold validate_schema. simpl. split.
  - rewrite elem_of_config_validate. split; [|by right].
    intros [(env & variables & pre & v & post & _ & _ & [[_ Heq]|Hv])|[? _]]; [..|done].
    + discriminate Heq.
    + apply variable_validate_head in Hv as [rest Heq]. discriminate Heq.
  - intros Hnil. rewrite config_validate_eq, decide_True by done. by eexists.
Qed.

(** X14.  The environments are checked one after the other, each on its
    own: with a target, the errors of a configuration are the errors of its
    first environments followed by the errors of the remaining ones, and a
    name may be reused in another environment without a duplicate error. *)
Theorem config_validate_app schema_version envs1 envs2 target targets :
  Config.validate (Config.mk schema_version (envs1 ++ envs2) (target :: targets))
  = Config.validate (Config.mk schema_version envs1 (target :: targets))
    ++ Config.validate (Config.mk schema_version envs2 (target :: targets)).
Proof.
  rewrite !config_validate_eq. simpl.
  by rewrite bind_app, !app_nil_r.
Qed.


(** ** The validators together *)

Lemma dict_lookup_Some {V} (k : string) (v : V) (d : dict V) :
  dict_lookup k d = Some v → (k, v) ∈ d.
Proof.
  induction d as [|[k' v'] d IH]; simpl; [done|].
  destruct (decide (k' = k)) as [->|?].
  - intros [= ->]. by left.
  - intros Hd. right. by apply IH.
Qed.

Lemma schema_ok_distinct_names (config : Config.t) (env_name : string) :
  schema_ok config → NoDup (VariableDefinition.name <$> env_variables config env_name).
Proof.
  intros [_ Henvs]. unfold env_variables, dict_get.
  destruct (dict_lookup env_name (Config.environments config)) as [variables|] eqn:Hd.
  - apply dict_lookup_Some in Hd. by apply Henvs in Hd as [? _].
  - constructor.
Qed.

(** X15.  On a configuration that passes the schema check, every declared
    variable is checked as it is declared: its "missing required variable"
    message is in the error list exactly when its name is absent from the
    mapping, it is required and it has no default; and the error list is
    empty exactly when every provided key is declared and the mapping meets
    every declared variable. *)
Theorem validate_env_valid_schema {rt : Runtime} (config : Config.t)
    (env_name env_file : string) (provided : gmap string string) :
  (validate_schema config).1 = true →
  (∀ v, v ∈ env_variables config env_name →
     msg_missing env_name (VariableDefinition.name v) env_file
       ∈ validate_env config env_name env_file provided
     ↔ provided !! VariableDefinition.name v = None
       ∧ VariableDefinition.required v = true
       ∧ VariableDefinition.default v = None)
  ∧ (validate_env config env_name env_file provided = []
     ↔ (∀ k, is_Some (provided !! k) → declares config env_name k)
       ∧ ∀ v, v ∈ env_variables config env_name → satisfies provided v).
Proof.
  unfold validate_schema. cbn [fst].
  intros Hok%bool_decide_eq_true%config_validate_nil_iff.
  pose proof (schema_ok_distinct_names _ env_name Hok) as Hnd. split.
  - intros v Hv. by apply validate_env_missing_distinct_names.
  - rewrite validate_env_nil_items, by_name_distinct, Forall_fmap, Forall_forall by done.
    split; intros [Hkeys Hsat]; (split; [done|]); intros v Hv.
    + apply (check_declared_nil env_name env_file). by apply Hsat.
    + apply check_declared_nil. by apply Hsat.
Qed.

(** ** More of the drift comparator *)

(** X16.  The comparator returns no message exactly when the two
    environments declare the same names. *)
Theorem diff_environments_nil_iff (config : Config.t) (left_env right_env : string) :
  diff_environments config left_env right_env = []
  ↔ ∀ n, declares config left_env n ↔ declares config right_env n.
Proof.
  rewrite diff_environments_eq. cbv zeta. rewrite app_nil. split.
  - intros [Hleft%fmap_nil_inv Hright%fmap_nil_inv] n.
    assert (∀ X : gset string, sorted X = [] → ∀ k, k ∉ X) as Hempty.
    { intros X HX k Hk. apply sorted_elem_of in Hk. rewrite HX in Hk.
      by apply elem_of_nil in Hk. }
    pose proof (Hempty _ Hleft n) as Hl. pose proof (Hempty _ Hright n) as Hr.
    rewrite elem_of_difference, !elem_of_declared_set in Hl, Hr.
    unfold declares in *.
    destruct (decide (n ∈ VariableDefinition.name <$> env_variables config left_env));
      destruct (decide (n ∈ VariableDefinition.name <$> env_variables config right_env));
      tauto.
  - intros Hsame.
    assert (∀ X Y : gset string, (∀ n, n ∈ X ↔ n ∈ Y) → sorted (X ∖ Y) = []) as Hempty.
    { intros X Y HXY. rewrite <-sorted_empty. f_equal. apply set_eq. intros n.
      rewrite elem_of_difference, HXY, elem_of_empty. tauto. }
    rewrite !Hempty; [done | |]; intros n; rewrite !elem_of_declared_set;
      by rewrite Hsame.
Qed.

(** X17.  Swapping the two environments gives the same messages in another
    order: the comparison reports the same differences from either side. *)
Theorem diff_environments_swap (config : Config.t) (left_env right_env : string) :
  diff_environments config right_env left_env
  ≡ₚ diff_environments config left_env right_env.
Proof.
  rewrite !diff_environments_eq. cbv zeta. apply Permutation_app_comm.
Qed.


(** ** Trimming, searching and splitting text *)

Local Open Scope string_scope.

Lemma string_app_nil_l (s : string) : EmptyString ++ s = s.
Proof. reflexivity. Qed.

Lemma string_app_nil_r (s : string) : s ++ EmptyString = s.
Proof. induction s as [|c s IH]; [done|]. by rewrite string_app_cons, IH. Qed.

Lemma string_app_assoc (a b c : string) : (a ++ b) ++ c = a ++ b ++ c.
Proof. induction a as [|x a IH]; [done|]. by rewrite !string_app_cons, IH. Qed.

Lemma lstrip_length (s : string) : (String.length (Str.lstrip s) ≤ String.length s)%nat.
Proof. induction s as [|c s IH]; simpl; [done|]. destruct (Str.isspace c); simpl; lia. Qed.

Lemma lstrip_id_head (c : ascii) (s : string) :
  Str.lstrip (String c s) = String c s ↔ Str.isspace c = false.
Proof.
  simpl. destruct (Str.isspace c); [|done]. split; [|done].
  intros Heq. pose proof (lstrip_length s) as Hlen. rewrite Heq in Hlen.
  simpl in Hlen. lia.
Qed.

Lemma lstrip_lstrip (s : string) : Str.lstrip (Str.lstrip s) = Str.lstrip s.
Proof.
  induction s as [|c s IH]; [done|]. simpl.
  destruct (Str.isspace c) eqn:Hc; [done|]. simpl. by rewrite Hc.
Qed.

Lemma lstrip_app (a b : string) :
  Str.lstrip (a ++ b)
  = if decide (Str.lstrip a = EmptyString) then Str.lstrip b else Str.lstrip a ++ b.
Proof.
  induction a as [|c a IH]; [done|]. rewrite string_app_cons. simpl.
  destruct (Str.isspace c); [done|]. by rewrite decide_False.
Qed.

Lemma rstrip_cons (c : ascii) (s : string) :
  Str.rstrip (String c s)
  = if decide (Str.rstrip s = EmptyString)
    then (if Str.isspace c then EmptyString else String c EmptyString)
    else String c (Str.rstrip s).
Proof. simpl. by destruct (Str.rstrip s). Qed.

Lemma rstrip_app (a b : string) :
  Str.rstrip (a ++ b)
  = if decide (Str.rstrip b = EmptyString) then Str.rstrip a else a ++ Str.rstrip b.
Proof.
  induction a as [|c a IH].
  - change (EmptyString ++ b) with b. by destruct (decide _) as [->|].
  - rewrite !string_app_cons, !rstrip_cons, IH.
    destruct (decide (Str.rstrip b = EmptyString)) as [Hb|Hb]; [done|].
    rewrite decide_False; [done|]. destruct a; [done|]. by rewrite string_app_cons.
Qed.

Lemma rstrip_rstrip (s : string) : Str.rstrip (Str.rstrip s) = Str.rstrip s.
Proof.
  induction s as [|c s IH]; [done|]. rewrite rstrip_cons.
  destruct (decide (Str.rstrip s = EmptyString)) as [Hs|Hs].
  - destruct (Str.isspace c) eqn:Hc; [done|]. simpl. by rewrite Hc.
  - rewrite rstrip_cons, IH. by rewrite decide_False.
Qed.

Lemma lstrip_rstrip (s : string) :
  Str.lstrip s = s → Str.lstrip (Str.rstrip s) = Str.rstrip s.
Proof.
  destruct s as [|c s]; [done|]. intros Hc%lstrip_id_head. rewrite rstrip_cons.
  destruct (decide _); [rewrite Hc|]; by apply lstrip_id_head.
Qed.

Lemma strip_strip (s : string) : Str.strip (Str.strip s) = Str.strip s.
Proof.
  unfold Str.strip. rewrite (lstrip_rstrip (Str.lstrip s)) by apply lstrip_lstrip.
  apply rstrip_rstrip.
Qed.

Lemma strip_id (s : string) :
  Str.strip s = s ↔ Str.lstrip s = s ∧ Str.rstrip s = s.
Proof.
  split.
  - intros Heq. split.
    + rewrite <-Heq at 1. unfold Str.strip.
      by rewrite (lstrip_rstrip (Str.lstrip s)) by apply lstrip_lstrip.
    + rewrite <-Heq at 1. unfold Str.strip. by rewrite rstrip_rstrip.
  - intros [Hl Hr]. unfold Str.strip. by rewrite Hl.
Qed.

Lemma strip_line (line : string) :
  Str.strip (line ++ String Str.LF EmptyString) = Str.strip line.
Proof.
  unfold Str.strip. rewrite lstrip_app.
  destruct (decide (Str.lstrip line = EmptyString)) as [->|Hne]; [done|].
  by rewrite rstrip_app.
Qed.

Lemma prefix_app_l (p a b : string) :
  String.prefix p a = true → String.prefix p (a ++ b) = true.
Proof.
  intros [rest ->]%prefix_app. apply prefix_app. exists (rest ++ b).
  by rewrite string_app_assoc.
Qed.

Lemma contains_iff (sub s : string) :
  Str.contains sub s = true ↔ ∃ a b, s = a ++ sub ++ b.
Proof.
  induction s as [|c s IH].
  - change (Str.contains sub EmptyString) with (String.prefix sub EmptyString || false).
    rewrite orb_false_r, prefix_app. split.
    + intros [rest Heq]. by exists EmptyString, rest.
    + intros (a & b & Heq). destruct a; [by exists b|done].
  - change (Str.contains sub (String c s))
      with (String.prefix sub (String c s) || Str.contains sub s).
    rewrite orb_true_iff, IH, prefix_app. split.
    + intros [[rest Heq]|(a & b & ->)].
      * by exists EmptyString, rest.
      * by exists (String c a), b.
    + intros (a & b & Heq). destruct a as [|c' a].
      * left. by exists b.
      * rewrite string_app_cons in Heq. injection Heq as -> ->. right. by exists a, b.
Qed.

Lemma contains_app_l (sub a b : string) :
  Str.contains sub a = true → Str.contains sub (a ++ b) = true.
Proof.
  rewrite !contains_iff. intros (x & y & ->). exists x, (y ++ b).
  by rewrite !string_app_assoc.
Qed.

Lemma contains_app_r (sub a b : string) :
  Str.contains sub b = true → Str.contains sub (a ++ b) = true.
Proof.
  rewrite !contains_iff. intros (x & y & ->). exists (a ++ x), y.
  by rewrite !string_app_assoc.
Qed.

Lemma lstrip_suffix (s : string) : ∃ a, s = a ++ Str.lstrip s.
Proof.
  induction s as [|c s [a IH]]; [by exists EmptyString|]. simpl.
  destruct (Str.isspace c).
  - exists (String c a). by rewrite string_app_cons, <-IH.
  - by exists EmptyString.
Qed.

Lemma rstrip_prefix (s : string) : ∃ b, s = Str.rstrip s ++ b.
Proof.
  induction s as [|c s [b IH]]; [by exists EmptyString|]. rewrite rstrip_cons.
  destruct (decide (Str.rstrip s = EmptyString)) as [Hs|Hs].
  - destruct (Str.isspace c); [by eexists|]. exists s. done.
  - exists b. by rewrite string_app_cons, <-IH.
Qed.

Lemma contains_strip (sub s : string) :
  Str.contains sub (Str.strip s) = true → Str.contains sub s = true.
Proof.
  unfold Str.strip. intros Hin.
  destruct (lstrip_suffix s) as [a Ha]. destruct (rstrip_prefix (Str.lstrip s)) as [b Hb].
  rewrite Ha, Hb. by apply contains_app_r, contains_app_l.
Qed.

Lemma skip_app (a b : string) : Str.skip (String.length a) (a ++ b) = b.
Proof. induction a as [|c a IH]; [by destruct b|]. by rewrite string_app_cons. Qed.

(** Splitting at a one-character separator: the two parts are the text
    before and after its first occurrence. *)
Lemma split1_char_app (c : ascii) (k v : string) :
  Str.contains (String c EmptyString) k = false →
  Str.split1 (String c EmptyString) (k ++ String c v) = [k; v].
Proof.
  induction k as [|x k IH]; intros Hk.
  - change (EmptyString ++ String c v) with (String c v). simpl.
    destruct (Ascii.ascii_dec c c); [|done]. by destruct v.
  - simpl in Hk. apply orb_false_iff in Hk as [Hx Hk].
    rewrite string_app_cons.
    change (Str.split1 (String c EmptyString) (String x (k ++ String c v)))
      with (if String.prefix (String c EmptyString) (String x (k ++ String c v))
            then [EmptyString; Str.skip 1 (String x (k ++ String c v))]
            else match Str.split1 (String c EmptyString) (k ++ String c v) with
                 | head :: rest => String x head :: rest
                 | [] => []
                 end).
    rewrite IH by done. simpl. simpl in Hx.
    destruct (Ascii.ascii_dec c x); [|done]. by destruct k.
Qed.

Lemma split1_char_inv (c : ascii) (s key value : string) :
  Str.split1 (String c EmptyString) s = [key; value] →
  s = key ++ String c value ∧ Str.contains (String c EmptyString) key = false.
Proof.
  revert key. induction s as [|x s IH]; intros key; [done|].
  change (Str.split1 (String c EmptyString) (String x s))
    with (if String.prefix (String c EmptyString) (String x s)
          then [EmptyString; Str.skip 1 (String x s)]
          else match Str.split1 (String c EmptyString) s with
               | head :: rest => String x head :: rest
               | [] => []
               end).
  destruct (String.prefix (String c EmptyString) (String x s)) eqn:Hpre.
  - intros [= <- <-]. simpl in Hpre. destruct (Ascii.ascii_dec c x) as [->|]; done.
  - destruct (Str.split1 (String c EmptyString) s) as [|head rest] eqn:Hs; [done|].
    intros [= <- ->]. destruct (IH head eq_refl) as [-> Hhead]. split; [done|].
    simpl. simpl in Hpre. rewrite Hhead.
    destruct (Ascii.ascii_dec c x); [by destruct (head ++ String c value)%string|done].
Qed.

(** ** The lines of a text *)

Lemma readlines_cons_ne (c : ascii) (text : string) : Str.readlines (String c text) ≠ [].
Proof.
  simpl. destruct (Ascii.eqb c Str.LF); [done|].
  destruct (Ascii.eqb c Str.CR).
  - destruct text as [|c' text]; [done|]. by destruct (Ascii.eqb c' Str.LF).
  - by destruct (Str.readlines text).
Qed.


Lemma readlines_unfold (c : ascii) (text : string) :
  Str.readlines (String c text)
  = if Ascii.eqb c Str.LF then String Str.LF EmptyString :: Str.readlines text
    else if Ascii.eqb c Str.CR then
      match text with
      | String c' text' =>
          if Ascii.eqb c' Str.LF then String Str.LF EmptyString :: Str.readlines text'
          else String Str.LF EmptyString :: Str.readlines text
      | EmptyString => [String Str.LF EmptyString]
      end
    else match Str.readlines text with
         | line :: lines => String c line :: lines
         | [] => [String c EmptyString]
         end.
Proof. reflexivity. Qed.

(** A line feed ends a line whatever follows it. *)
Lemma readlines_app (t rest : string) :
  Str.readlines (t ++ String Str.LF rest)
  = (Str.readlines (t ++ String Str.LF EmptyString) ++ Str.readlines rest)%list.
Proof.
  remember (String.length t) as n eqn:Hn. revert t Hn.
  induction n as [n IH] using lt_wf_ind. intros t ->.
  destruct t as [|c t]; [done|].
  rewrite !string_app_cons, !readlines_unfold.
  destruct (Ascii.eqb c Str.LF).
  { rewrite (IH (String.length t)); [done | simpl; lia | done]. }
  destruct (Ascii.eqb c Str.CR).
  - destruct t as [|c' t]; [done|]. rewrite !string_app_cons.
    destruct (Ascii.eqb c' Str.LF).
    + rewrite (IH (String.length t)); [done | simpl; lia | done].
    + rewrite <-!string_app_cons.
      rewrite (IH (String.length (String c' t))); [done | simpl; lia | done].
  - rewrite (IH (String.length t)); [|simpl; lia | done].
    destruct (Str.readlines (t ++ String Str.LF EmptyString)) as [|line lines] eqn:Hlines;
      [|done].
    destruct t; by apply readlines_cons_ne in Hlines.
Qed.

Lemma contains_char_cons (c x : ascii) (s : string) :
  Str.contains_char c (String x s) = Ascii.eqb c x || Str.contains_char c s.
Proof. reflexivity. Qed.

Lemma readlines_one_line (line : string) :
  one_line line →
  Str.readlines (line ++ String Str.LF EmptyString) = [line ++ String Str.LF EmptyString].
Proof.
  intros [Hlf Hcr]. induction line as [|c line IH]; [done|].
  rewrite contains_char_cons in Hlf, Hcr.
  apply orb_false_iff in Hlf as [Hc Hlf]. apply orb_false_iff in Hcr as [Hc' Hcr].
  rewrite string_app_cons, readlines_unfold, IH by done.
  rewrite Ascii.eqb_sym, Hc. by rewrite Ascii.eqb_sym, Hc'.
Qed.

Lemma readlines_snoc (text line : string) :
  whole_lines text → one_line line →
  Str.readlines (text ++ line ++ String Str.LF EmptyString)
  = (Str.readlines text ++ [(line ++ String Str.LF EmptyString)%string])%list.
Proof.
  intros [->|[t ->]] Hline.
  - by apply readlines_one_line.
  - rewrite string_app_assoc, string_app_cons, string_app_nil_l.
    by rewrite readlines_app, (readlines_one_line line).
Qed.

Lemma contains_char_app (c : ascii) (a b : string) :
  Str.contains_char c (a ++ b) = Str.contains_char c a || Str.contains_char c b.
Proof.
  induction a as [|x a IH]; [done|].
  by rewrite string_app_cons, !contains_char_cons, IH, orb_assoc.
Qed.

Lemma one_line_app (a b : string) : one_line (a ++ b) ↔ one_line a ∧ one_line b.
Proof.
  unfold one_line. rewrite !contains_char_app, !orb_false_iff. tauto.
Qed.

(** ** Reading an environment file *)

Lemma load_env_file_snoc (text line : string) :
  whole_lines text → one_line line →
  load_env_file (Some (text ++ line ++ String Str.LF EmptyString))
  = load_env_line (load_env_file (Some text)) (line ++ String Str.LF EmptyString).
Proof.
  intros Htext Hline. unfold load_env_file.
  by rewrite readlines_snoc, foldl_app by done.
Qed.

Lemma prefix_char_cons (a c : ascii) (s : string) :
  String.prefix (String a EmptyString) (String c s)
  = if Ascii.ascii_dec a c then true else false.
Proof. simpl. by destruct (Ascii.ascii_dec a c), s. Qed.

Lemma load_env_line_binding (data : gmap string string) (k v : string) :
  env_key k → env_value v →
  load_env_line data (env_line k v) = <[k := v]> data.
Proof.
  intros (Hk & _ & Hkeq & Hkhash) (Hv & _).
  apply strip_id in Hk as Hk'. destruct Hk' as [Hkl Hkr].
  apply strip_id in Hv as Hv'. destruct Hv' as [Hvl Hvr].
  unfold load_env_line, env_line.
  replace (k ++ "=" ++ v ++ String Str.LF EmptyString)
    with ((k ++ "=" ++ v) ++ String Str.LF EmptyString)
    by (by rewrite !string_app_assoc).
  rewrite strip_line.
  assert (Str.rstrip ("=" ++ v) = "=" ++ v) as Heqv.
  { rewrite rstrip_app, Hvr. destruct (decide (v = EmptyString)) as [->|]; done. }
  assert (Str.strip (k ++ "=" ++ v) = k ++ "=" ++ v) as ->.
  { apply strip_id. split.
    - destruct k as [|c k]; [done|]. rewrite string_app_cons.
      apply lstrip_id_head. by apply lstrip_id_head in Hkl.
    - rewrite rstrip_app, Heqv. by rewrite decide_False. }
  cbv zeta.
  assert (k ++ "=" ++ v ≠ EmptyString) as Hne by (by destruct k).
  rewrite (bool_decide_eq_false_2 _ Hne).
  assert (Str.startswith (k ++ "=" ++ v) "#" = false) as ->.
  { unfold Str.startswith in *. destruct k as [|c k]; [done|].
    by rewrite string_app_cons, prefix_char_cons, <-(prefix_char_cons _ _ k). }
  assert (Str.contains "=" (k ++ "=" ++ v) = true) as ->
    by (apply contains_iff; by exists k, v).
  change ("=" ++ v) with (String "=" v).
  rewrite (split1_char_app "=" k v) by done. cbn [negb]. by rewrite Hk, Hv.
Qed.

Lemma load_env_file_binding_line (text k v : string) :
  whole_lines text → env_key k → env_value v →
  load_env_file (Some (text ++ env_line k v)%string)
  = load_env_line (load_env_file (Some text)) (env_line k v).
Proof.
  intros Htext (_ & Hk & _) (_ & Hv).
  pose proof (load_env_file_snoc text (k ++ "=" ++ v) Htext) as Hsnoc.
  replace ((k ++ "=" ++ v) ++ String Str.LF EmptyString) with (env_line k v) in Hsnoc
    by (unfold env_line; by rewrite !string_app_assoc).
  apply Hsnoc. apply one_line_app. split; [done|]. apply one_line_app. by split.
Qed.

(** X18.  Every key and value that [load_env_file] returns is trimmed of
    surrounding white space, and no key contains [=]: a line is split at
    its first [=]. *)
Theorem load_env_file_trimmed (file : option string) (k v : string) :
  load_env_file file !! k = Some v →
  Str.strip k = k ∧ Str.strip v = v ∧ Str.contains "=" k = false.
Proof.
  destruct file as [text|]; simpl; [|by rewrite lookup_empty].
  assert (∀ lines (data : gmap string string),
            (∀ k v, data !! k = Some v →
               Str.strip k = k ∧ Str.strip v = v ∧ Str.contains "=" k = false) →
            ∀ k v, foldl load_env_line data lines !! k = Some v →
               Str.strip k = k ∧ Str.strip v = v ∧ Str.contains "=" k = false) as Hinv.
  { induction lines as [|line lines IH]; intros data Hdata; [done|]. simpl.
    apply IH. unfold load_env_line. cbv zeta.
    destruct (_ || _); [done|]. destruct (negb _); [done|].
    destruct (Str.split1 "=" (Str.strip line)) as [|key [|value [|]]] eqn:Hsplit; try done.
    apply (split1_char_inv "=") in Hsplit as [_ Hkey].
    intros k' v'. rewrite lookup_insert. case_decide as Heq; [|by apply Hdata].
    intros [= <-]. subst k'. rewrite !strip_strip. split_and!; [done..|].
    destruct (Str.contains "=" (Str.strip key)) eqn:Hin; [|done].
    apply contains_strip in Hin. congruence. }
  apply Hinv. intros k' v'. by rewrite lookup_empty.
Qed.

(** X19.  Adding the line [KEY=VALUE] at the end of a file of whole lines
    binds the key to the value and leaves the other bindings as they were,
    for a key and a value that are trimmed and on one line, the key without
    [=] and not starting with [#]. *)
Theorem load_env_file_append (text k v : string) :
  whole_lines text → env_key k → env_value v →
  load_env_file (Some (text ++ env_line k v)%string)
  = <[k := v]> (load_env_file (Some text)).
Proof.
  intros Htext Hk Hv. rewrite load_env_file_binding_line by done.
  by apply load_env_line_binding.
Qed.

(** X20.  A line that is blank, that starts with [#] after trimming or that
    has no [=] changes nothing: adding it at the end of a file of whole
    lines gives the same mapping. *)
Theorem load_env_file_ignored (text line : string) :
  whole_lines text → one_line line →
  Str.strip line = EmptyString
  ∨ Str.startswith (Str.strip line) "#" = true
  ∨ Str.contains "=" (Str.strip line) = false →
  load_env_file (Some (text ++ line ++ String Str.LF EmptyString)%string)
  = load_env_file (Some text).
Proof.
  intros Htext Hline Hignored. rewrite load_env_file_snoc by done.
  unfold load_env_line. rewrite strip_line. cbv zeta.
  destruct Hignored as [-> | [-> | ->]]; [done | by rewrite orb_true_r |].
  by destruct (_ || _).
Qed.

Lemma env_text_snoc (bindings : list (string * string)) (k v : string) :
  env_text (bindings ++ [(k, v)]) = env_text bindings ++ env_line k v.
Proof.
  induction bindings as [|[k' v'] bindings IH]; simpl.
  - by rewrite string_app_nil_r.
  - by rewrite IH, string_app_assoc.
Qed.

Lemma env_text_whole_lines (bindings : list (string * string)) :
  whole_lines (env_text bindings).
Proof.
  destruct bindings as [|[k v] bindings _] using rev_ind; [by left|]. right.
  rewrite env_text_snoc. exists (env_text bindings ++ k ++ "=" ++ v).
  unfold env_line. by rewrite !string_app_assoc.
Qed.

(** X21.  Round trip: reading the text that has one line [KEY=VALUE] per
    binding gives the bindings back, a later binding of a key replacing an
    earlier one, when every key and value is trimmed and on one line and
    the keys have no [=] and do not start with [#]. *)
Theorem load_env_file_env_text (bindings : list (string * string)) :
  Forall (λ kv, env_key kv.1 ∧ env_value kv.2) bindings →
  load_env_file (Some (env_text bindings)) = list_to_map (reverse bindings).
Proof.
  induction bindings as [|[k v] bindings IH] using rev_ind; [done|].
  intros [Hall [Hk Hv]%Forall_singleton]%Forall_app.
  rewrite env_text_snoc, load_env_file_binding_line, load_env_line_binding, IH,
    reverse_snoc by (done || apply env_text_whole_lines).
  done.
Qed.


(** ** The commands *)

Local Open Scope list_scope.

(** X22.  [validate_command] exits with 0 exactly when it logged nothing,
    and that is exactly when the schema breaks no rule, the environment
    file has no error and, when a non-empty [drift_with] is given, the
    comparison with that environment reports nothing; otherwise it exits
    with 1.  An empty [drift_with] is taken as not given. *)
Theorem validate_command_exit {rt : Runtime} (config : Config.t) (env : string)
    (file : option string) (environment : string) (drift_with : option string) :
  let result := cli.validate_command config env file environment drift_with in
  (result.2 = 0%Z ∨ result.2 = 1%Z)
  ∧ (result.2 = 0%Z ↔ result.1 = [])
  ∧ (result.2 = 0%Z
     ↔ schema_ok config
       ∧ validate_env_file config environment env file = []
       ∧ ∀ other, drift_with = Some other → other ≠ EmptyString →
           diff_environments config environment other = []).
Proof.
  cbv zeta. unfold cli.validate_command.
  rewrite <-config_validate_nil_iff. unfold validate_schema.
  set (schema := Config.validate config).
  set (found := validate_env_file config environment env file).
  assert (bool_decide (schema = []) = true ↔ schema = []) as Hok
    by apply bool_decide_eq_true.
  destruct drift_with as [[|c other]|]; unfold default; cbn [cli.given from_option id].
  - destruct (bool_decide_reflect (schema ++ found = [])) as [Hnil|Hne]; cbn [fst snd].
    + apply app_nil in Hnil as [Hs Hf]. rewrite Hs, Hf.
      split_and!; [by left | done |]. split; [|done]. intros _.
      split_and!; [done | done |]. by intros other' [= <-].
    + split_and!; [by right | |].
      * split; [done|]. destruct (bool_decide (schema = [])); simpl; [|done].
        by intros ?%fmap_nil_inv.
      * split; [done|]. intros (Hs & Hf & _). by rewrite Hs, Hf in Hne.
  - set (drift := diff_environments config environment (String c other)).
    destruct (bool_decide_reflect ((schema ++ found) ++ drift = [])) as [Hnil|Hne];
      cbn [fst snd].
    + apply app_nil in Hnil as [[Hs Hf]%app_nil Hd]. rewrite Hs, Hf, Hd.
      split_and!; [by left | done |]. split; [|done]. intros _.
      split_and!; [done | done |]. by intros other' [= <-] _.
    + split_and!; [by right | |].
      * split; [done|]. destruct (bool_decide (schema = [])); simpl.
        -- intros [H1%fmap_nil_inv H2%fmap_nil_inv]%app_nil. exfalso. apply Hne.
           by rewrite H1, H2.
        -- done.
      * split; [done|]. intros (Hs & Hf & Hd). exfalso. apply Hne.
        rewrite Hs, Hf. simpl. by apply (Hd (String c other)).
  - destruct (bool_decide_reflect (schema ++ found = [])) as [Hnil|Hne]; cbn [fst snd].
    + apply app_nil in Hnil as [Hs Hf]. rewrite Hs, Hf.
      split_and!; [by left | done |]. split; [|done]. intros _.
      split_and!; [done | done |]. by intros other'.
    + split_and!; [by right | |].
      * split; [done|]. destruct (bool_decide (schema = [])); simpl; [|done].
        by intros ?%fmap_nil_inv.
      * split; [done|]. intros (Hs & Hf & _). by rewrite Hs, Hf in Hne.
Qed.

(** X23.  [doctor_command] exits with 0 and logs the one line that the
    schema looks good exactly when the schema check passes; otherwise it
    exits with 1 and logs the errors of the schema, at least one, each as an
    error. *)
Theorem doctor_command_exit (config : Config.t) :
  (schema_ok config
   ∧ cli.doctor_command config = ([(cli.INFO, "Config schema looks good.")], 0%Z))
  ∨ (¬ schema_ok config
     ∧ (validate_schema config).2 ≠ []
     ∧ cli.doctor_command config
       = ((λ err, (cli.ERROR, err)) <$> (validate_schema config).2, 1%Z)).
Proof.
  rewrite <-config_validate_nil_iff. unfold cli.doctor_command, validate_schema.
  cbn [fst snd]. destruct (bool_decide_reflect (Config.validate config = [])) as [Hnil|Hne].
  - left. split; [done|]. by rewrite Hnil.
  - right. done.
Qed.


(** ** The ignore file that [init_command] maintains *)

Local Open Scope string_scope.

Lemma concat_cons (x : string) (l : list string) :
  String.concat EmptyString (x :: l) = x ++ String.concat EmptyString l.
Proof. destruct l; simpl; [by rewrite string_app_nil_r | done]. Qed.

Lemma read_text_cons (c : ascii) (text : string) :
  cli.read_text (String c text)
  = if Ascii.eqb c Str.LF then String Str.LF (cli.read_text text)
    else if Ascii.eqb c Str.CR then
      match text with
      | String c' text' =>
          if Ascii.eqb c' Str.LF then String Str.LF (cli.read_text text')
          else String Str.LF (cli.read_text text)
      | EmptyString => String Str.LF EmptyString
      end
    else String c (cli.read_text text).
Proof.
  unfold cli.read_text. rewrite readlines_unfold.
  destruct (Ascii.eqb c Str.LF); [by rewrite concat_cons|].
  destruct (Ascii.eqb c Str.CR).
  - destruct text as [|c' text']; [done|].
    destruct (Ascii.eqb c' Str.LF); by rewrite concat_cons.
  - destruct (Str.readlines text) as [|line lines]; [done|]. by rewrite !concat_cons.
Qed.

(** Text read in text mode has no carriage return. *)
Lemma read_text_no_CR (raw : string) : Str.contains_char Str.CR (cli.read_text raw) = false.
Proof.
  remember (String.length raw) as n eqn:Hn. revert raw Hn.
  induction n as [n IH] using lt_wf_ind. intros raw ->.
  destruct raw as [|c raw]; [done|]. rewrite read_text_cons.
  destruct (Ascii.eqb c Str.LF) eqn:Hlf.
  { rewrite contains_char_cons. rewrite (IH (String.length raw)); [done | simpl; lia | done]. }
  destruct (Ascii.eqb c Str.CR) eqn:Hcr.
  - destruct raw as [|c' raw]; [done|].
    destruct (Ascii.eqb c' Str.LF); rewrite contains_char_cons.
    + rewrite (IH (String.length raw)); [done | simpl; lia | done].
    + rewrite (IH (String.length (String c' raw))); [done | simpl; lia | done].
  - rewrite contains_char_cons, Ascii.eqb_sym, Hcr.
    rewrite (IH (String.length raw)); [done | simpl; lia | done].
Qed.

(** Text without carriage return is read as it is. *)
Lemma read_text_id (s : string) : Str.contains_char Str.CR s = false → cli.read_text s = s.
Proof.
  induction s as [|c s IH]; [done|]. rewrite contains_char_cons, read_text_cons.
  intros [Hc Hs]%orb_false_iff. rewrite Ascii.eqb_sym in Hc. rewrite Hc, (IH Hs).
  destruct (Ascii.eqb_spec c Str.LF) as [->|]; done.
Qed.

Lemma contains_lstrip (x : ascii) (item s : string) :
  Str.isspace x = false →
  Str.contains (String x item) s = true → Str.contains (String x item) (Str.lstrip s) = true.
Proof.
  intros Hx. induction s as [|c s IH]; [done|].
  change (Str.lstrip (String c s)) with (if Str.isspace c then Str.lstrip s else String c s).
  destruct (Str.isspace c) eqn:Hc; [|done].
  change (Str.contains (String x item) (String c s))
    with (String.prefix (String x item) (String c s) || Str.contains (String x item) s).
  assert (String.prefix (String x item) (String c s) = false) as ->; [|done].
  simpl. destruct (Ascii.ascii_dec x c) as [->|]; [congruence | done].
Qed.

Lemma contains_rstrip (item s : string) :
  item ≠ EmptyString → Str.rstrip item = item →
  Str.contains item s = true → Str.contains item (Str.rstrip s) = true.
Proof.
  intros Hne Hitem (a & b & ->)%contains_iff.
  assert (∃ b', Str.rstrip (item ++ b) = item ++ b') as [b' Hb'].
  { rewrite rstrip_app. destruct (decide _).
    - exists EmptyString. by rewrite Hitem, string_app_nil_r.
    - by eexists. }
  rewrite rstrip_app, Hb', decide_False by (by destruct item).
  apply contains_iff. by exists a, b'.
Qed.

Lemma contains_strip_item (x : ascii) (item s : string) :
  Str.isspace x = false → Str.rstrip (String x item) = String x item →
  Str.contains (String x item) s = true →
  Str.contains (String x item) (Str.strip s) = true.
Proof.
  intros Hx Hr Hin. unfold Str.strip.
  apply contains_rstrip; [done..|]. by apply contains_lstrip.
Qed.

Lemma contains_char_strip (c : ascii) (s : string) :
  Str.contains_char c s = false → Str.contains_char c (Str.strip s) = false.
Proof.
  unfold Str.strip. destruct (lstrip_suffix s) as [a Ha].
  destruct (rstrip_prefix (Str.lstrip s)) as [b Hb].
  rewrite Ha at 1. rewrite Hb at 1. rewrite !contains_char_app, !orb_false_iff. tauto.
Qed.

(** The content before trimming: what the file held, then the entries that
    it lacked. *)
Lemma init_gitignore_eq (gitignore : option string) :
  ∃ content,
    cli.init_gitignore gitignore = Str.strip content ++ String Str.LF EmptyString
    ∧ Str.contains ".env.*" content = true
    ∧ Str.contains "generated" content = true
    ∧ Str.contains_char Str.CR content = false.
Proof.
  unfold cli.init_gitignore. cbn [foldl].
  set (content := match gitignore with Some raw => cli.read_text raw | None => EmptyString end).
  assert (Str.contains_char Str.CR content = false) as Hcr
    by (destruct gitignore; [apply read_text_no_CR | done]).
  eexists. split; [reflexivity|].
  destruct (Str.contains ".env.*" content) eqn:H1; cbn [negb];
    [set (content1 := content)
    |set (content1 := content ++ String Str.LF ".env.*")].
  all: assert (Str.contains ".env.*" content1 = true) as H1'
      by first [done | apply contains_iff; by exists (content ++ String Str.LF EmptyString), EmptyString; rewrite !string_app_assoc ].
  all: assert (Str.contains_char Str.CR content1 = false) as Hcr1
      by first [done | unfold content1; rewrite contains_char_app, Hcr; done].
  all: clearbody content1.
  all: destruct (Str.contains "generated" content1) eqn:H2; cbn [negb]; [done|].
  all: split_and!.
  all: try (by apply contains_app_l).
  all: try (apply contains_iff; exists (content1 ++ String Str.LF EmptyString), EmptyString;
            by rewrite !string_app_assoc).
  all: by rewrite contains_char_app, Hcr1.
Qed.

(** X24.  [init_command] can be run again: the ignore file it writes names
    [.env.*] and [generated], ends with one line feed after trimmed content,
    and is left as it is by a second run. *)
Theorem init_gitignore_idempotent (gitignore : option string) :
  Str.contains ".env.*" (cli.init_gitignore gitignore) = true
  ∧ Str.contains "generated" (cli.init_gitignore gitignore) = true
  ∧ (∃ content, cli.init_gitignore gitignore = content ++ String Str.LF EmptyString
                ∧ Str.strip content = content)
  ∧ cli.init_gitignore (Some (cli.init_gitignore gitignore)) = cli.init_gitignore gitignore.
Proof.
  destruct (init_gitignore_eq gitignore) as (content & Heq & H1 & H2 & Hcr).
  assert (Str.contains ".env.*" (cli.init_gitignore gitignore) = true) as H1'.
  { rewrite Heq. by apply contains_app_l, contains_strip_item. }
  assert (Str.contains "generated" (cli.init_gitignore gitignore) = true) as H2'.
  { rewrite Heq. by apply contains_app_l, contains_strip_item. }
  split_and!; [done | done | |].
  - exists (Str.strip content). split; [done | apply strip_strip].
  - unfold cli.init_gitignore at 1. cbn [foldl].
    rewrite read_text_id.
    + rewrite H1'. cbn [negb]. rewrite H2'. cbn [negb].
      rewrite Heq at 1. rewrite strip_line, strip_strip. by rewrite Heq.
    + rewrite Heq, contains_char_app. by rewrite contains_char_strip.
Qed.

(** * The properties at the sample data *)

#[local] Existing Instance Reference.runtime.
Local Open Scope string_scope.

(** ** The coercion engine *)

Example parse_TRUE : _parse_value "TRUE" Sample.FEATURE_FLAG = Ok (VBool true).
Proof. reflexivity. Qed.

Example parse_true : _parse_value "true" Sample.FEATURE_FLAG = Ok (VBool true).
Proof. reflexivity. Qed.

Example parse_maybe : _parse_value "maybe" Sample.FEATURE_FLAG = Ok (VBool false).
Proof. reflexivity. Qed.

Lemma parse_boolean_witness :
  VariableDefinition.type Sample.FEATURE_FLAG = "boolean"
  ∧ ∃ b, _parse_value "TRUE" Sample.FEATURE_FLAG = Ok (VBool b)
         ∧ (b = true ↔ Str.lower "TRUE" ∈ ["true"; "1"; "yes"; "y"; "on"])
         ∧ (b = false ↔ Str.lower "TRUE" ∉ ["true"; "1"; "yes"; "y"; "on"]).
Proof.
  split; [reflexivity|].
  apply (parse_boolean "TRUE" Sample.FEATURE_FLAG). reflexivity.
Defined.

Example parse_enum_a : _parse_value "a" Sample.MODE = Ok (VStr "a").
Proof. reflexivity. Qed.

Example parse_enum_c :
  _parse_value "c" Sample.MODE
  = Raise "Value 'c' not allowed; expected one of ['a', 'b'].".
Proof. reflexivity. Qed.

Example parse_enum_A : fails (_parse_value "A" Sample.MODE).
Proof. by eexists. Qed.

Lemma parse_enum_witness :
  VariableDefinition.type Sample.MODE = "enum"
  ∧ VariableDefinition.enum Sample.MODE = Some ["a"; "b"]
  ∧ ["a"; "b"] ≠ []
  ∧ (succeeds (_parse_value "c" Sample.MODE) ↔ "c" ∈ ["a"; "b"])
  ∧ ("c" ∈ ["a"; "b"] → _parse_value "c" Sample.MODE = Ok (VStr "c"))
  ∧ ("c" ∉ ["a"; "b"] →
     _parse_value "c" Sample.MODE
     = Raise ("Value '" ++ "c" ++ "' not allowed; expected one of "
              ++ Str.repr_list ["a"; "b"] ++ ".")).
Proof.
  split_and!; [reflexivity | reflexivity | discriminate | ..];
    apply (parse_enum "c" Sample.MODE ["a"; "b"]);
    reflexivity || discriminate.
Defined.

Example parse_number_8080 : _parse_value "8080" Sample.PORT = Ok (VFloat "8080").
Proof. reflexivity. Qed.

Example parse_number_1e3 : _parse_value " -1_0.5e+3 " Sample.PORT = Ok (VFloat "-1_0.5e+3").
Proof. reflexivity. Qed.

Example parse_number_port :
  _parse_value "port" Sample.PORT = Raise "could not convert string to float: 'port'".
Proof. reflexivity. Qed.


Example parse_duration_seconds : _parse_value "1.5s" Sample.TIMEOUT = Ok (VFloat "1.5").
Proof. reflexivity. Qed.

Example parse_duration_bare : _parse_value "90" Sample.TIMEOUT = Ok (VFloat "90").
Proof. reflexivity. Qed.

Example parse_duration_s :
  _parse_value "s" Sample.TIMEOUT = Raise "could not convert string to float: ''".
Proof. reflexivity. Qed.

Example parse_duration_ms :
  _parse_value "20ms" Sample.TIMEOUT = Raise "could not convert string to float: '20m'".
Proof. reflexivity. Qed.

Lemma parse_duration_witness :
  VariableDefinition.type Sample.TIMEOUT = "duration"
  ∧ (∀ prefix, "1.5s" = prefix ++ "s" →
       _parse_value "1.5s" Sample.TIMEOUT = result_map VFloat (float prefix)
       ∧ (fails (_parse_value "1.5s" Sample.TIMEOUT) ↔ fails (float prefix)))
  ∧ ((∀ prefix, "1.5s" ≠ prefix ++ "s") →
     _parse_value "1.5s" Sample.TIMEOUT = result_map VFloat (float "1.5s")
     ∧ (fails (_parse_value "1.5s" Sample.TIMEOUT) ↔ fails (float "1.5s"))).
Proof.
  split; [reflexivity|]. apply (parse_duration "1.5s" Sample.TIMEOUT). reflexivity.
Defined.

Example parse_unrecognized_42 : _parse_value "42" Sample.LEGACY = Ok (VStr "42").
Proof. reflexivity. Qed.

Lemma parse_unrecognized_type_witness :
  (VariableDefinition.type Sample.LEGACY
     ∉ ["string"; "number"; "boolean"; "enum"; "url"; "duration"; "json"])
  ∧ _parse_value "42" Sample.LEGACY = Ok (VStr "42").
Proof.
  assert (VariableDefinition.type Sample.LEGACY
            ∉ ["string"; "number"; "boolean"; "enum"; "url"; "duration"; "json"])
    as Htype by compute_done.
  split; [exact Htype|]. apply (parse_unrecognized_type "42" Sample.LEGACY Htype).
Defined.

(** ** The environment validator *)

Example validate_env_template_defaults :
  validate_env Sample.TEMPLATE_CONFIG "development" ".env.development"
    {[ "API_URL" := "https://example.org" ]} = [].
Proof. vm_compute. reflexivity. Qed.

Example validate_env_template_ftp :
  validate_env Sample.TEMPLATE_CONFIG "development" ".env.development"
    {[ "API_URL" := "ftp://x" ]}
  = ["[development] variable 'API_URL' invalid: URL must start with http:// or https://"].
Proof. vm_compute. reflexivity. Qed.

Example validate_env_template_empty :
  validate_env Sample.TEMPLATE_CONFIG "development" ".env.development" ∅
  = ["[development] missing required variable 'API_URL' in .env.development"].
Proof. vm_compute. reflexivity. Qed.

Example validate_env_template_EXTRA :
  validate_env Sample.TEMPLATE_CONFIG "development" ".env.development"
    {[ "API_URL" := "https://example.org"; "EXTRA" := "1" ]}
  = ["[development] extra variable 'EXTRA' present in .env.development"].
Proof. vm_compute. reflexivity. Qed.

Example validate_env_template_extra :
  validate_env Sample.TEMPLATE_CONFIG "development" ".env.development"
    {[ "API_URL" := "https://example.org"; "ZETA" := "2"; "EXTRA" := "1" ]}
  = ["[development] extra variable 'EXTRA' present in .env.development";
     "[development] extra variable 'ZETA' present in .env.development"].
Proof. vm_compute. reflexivity. Qed.



(** ** The drift comparator *)

Example diff_environments_template :
  diff_environments Sample.TEMPLATE_CONFIG "development" "production" = [].
Proof. vm_compute. reflexivity. Qed.

Example diff_environments_conflicting :
  diff_environments
    (Config.mk "0.1"
       [("development", [Sample.TOKEN; Sample.PORT; Sample.API_URL]);
        ("production", [Sample.MODE; Sample.API_URL; Sample.LEGACY])] [])
    "development" "production"
  = ["Variable 'PORT' declared in development but missing in production.";
     "Variable 'TOKEN' declared in development but missing in production.";
     "Variable 'LEGACY' declared in production but missing in development.";
     "Variable 'MODE' declared in production but missing in development."].
Proof. vm_compute. reflexivity. Qed.

(** ** Unknown environments *)

Lemma unknown_environment_witness :
  ("staging" ∉ dict_keys (Config.environments Sample.TEMPLATE_CONFIG))
  ∧ (∀ env_file provided, ∃ extras,
       validate_env Sample.TEMPLATE_CONFIG "staging" env_file provided
       = (λ k, msg_extra "staging" k env_file) <$> extras
       ∧ sorted_listing extras (λ k, is_Some (provided !! k)))
  ∧ (∀ other, ∃ names,
       diff_environments Sample.TEMPLATE_CONFIG other "staging"
       = (λ n, msg_drift n other "staging") <$> names
       ∧ diff_environments Sample.TEMPLATE_CONFIG "staging" other
         = (λ n, msg_drift n other "staging") <$> names
       ∧ sorted_listing names (declares Sample.TEMPLATE_CONFIG other)).
Proof.
  assert ("staging" ∉ dict_keys (Config.environments Sample.TEMPLATE_CONFIG)) as Hunknown
    by compute_done.
  split; [exact Hunknown|].
  apply (unknown_environment Sample.TEMPLATE_CONFIG "staging" Hunknown).
Defined.

Example validate_env_staging :
  validate_env Sample.TEMPLATE_CONFIG "staging" ".env.staging"
    {[ "FEATURE_FLAG" := "maybe"; "API_URL" := "ftp://x" ]}
  = ["[staging] extra variable 'API_URL' present in .env.staging";
     "[staging] extra variable 'FEATURE_FLAG' present in .env.staging"].
Proof. vm_compute. reflexivity. Qed.

Example diff_environments_staging :
  diff_environments Sample.TEMPLATE_CONFIG "staging" "production"
  = ["Variable 'API_URL' declared in production but missing in staging.";
     "Variable 'FEATURE_FLAG' declared in production but missing in staging."].
Proof. vm_compute. reflexivity. Qed.

(** ** The schema validator *)

Example validate_schema_template : validate_schema Sample.TEMPLATE_CONFIG = (true, []).
Proof. vm_compute. reflexivity. Qed.

Example validate_schema_conflicting :
  validate_schema Sample.conflicting
  = (false,
     ["[development] variable 'TOKEN' is marked required but also provides a default; choose one."]).
Proof. vm_compute. reflexivity. Qed.

Lemma validate_schema_required_with_default_witness :
  ("development", [Sample.API_URL; Sample.TOKEN]) ∈ Config.environments Sample.conflicting
  ∧ Sample.TOKEN ∈ [Sample.API_URL; Sample.TOKEN]
  ∧ VariableDefinition.required Sample.TOKEN = true
  ∧ VariableDefinition.default Sample.TOKEN ≠ None
  ∧ (validate_schema Sample.conflicting).1 = false
  ∧ VariableDefinition.msg_required_default "development" "TOKEN"
      ∈ (validate_schema Sample.conflicting).2.
Proof.
  assert (("development", [Sample.API_URL; Sample.TOKEN])
            ∈ Config.environments Sample.conflicting) as Hentry by left.
  assert (Sample.TOKEN ∈ [Sample.API_URL; Sample.TOKEN]) as Hin by (right; left).
  assert (VariableDefinition.default Sample.TOKEN ≠ None) as Hdef by discriminate.
  split_and!; [exact Hentry | exact Hin | reflexivity | exact Hdef | ..];
    apply (proj2 (validate_schema_required_with_default Sample.conflicting)
             "development" [Sample.API_URL; Sample.TOKEN] Sample.TOKEN
             Hentry Hin eq_refl Hdef).
Defined.

(** ** The further properties *)

Local Open Scope list_scope.

Example parse_url_ftp :
  _parse_value "ftp://x" Sample.API_URL = Raise "URL must start with http:// or https://".
Proof. reflexivity. Qed.

Lemma parse_url_witness :
  VariableDefinition.type Sample.API_URL = "url"
  ∧ (succeeds (_parse_value "https://example.org" Sample.API_URL)
     ↔ ∃ rest, "https://example.org" = ("http://" ++ rest)%string
               ∨ "https://example.org" = ("https://" ++ rest)%string)
  ∧ (succeeds (_parse_value "https://example.org" Sample.API_URL) →
     _parse_value "https://example.org" Sample.API_URL = Ok (VStr "https://example.org"))
  ∧ (¬ succeeds (_parse_value "https://example.org" Sample.API_URL) →
     _parse_value "https://example.org" Sample.API_URL
     = Raise "URL must start with http:// or https://").
Proof.
  split; [reflexivity|].
  apply (parse_url "https://example.org" Sample.API_URL). reflexivity.
Defined.

Lemma parse_enum_unconstrained_witness :
  VariableDefinition.type Sample.CHOICE = "enum"
  ∧ (VariableDefinition.enum Sample.CHOICE = None
     ∨ VariableDefinition.enum Sample.CHOICE = Some [])
  ∧ _parse_value "anything" Sample.CHOICE = Ok (VStr "anything").
Proof.
  split_and!; [reflexivity | left; reflexivity |].
  apply (parse_enum_unconstrained "anything" Sample.CHOICE); [reflexivity|].
  left. reflexivity.
Defined.

Lemma parse_fails_only_witness :
  fails (_parse_value "port" Sample.PORT)
  ∧ VariableDefinition.type Sample.PORT ∈ ["number"; "enum"; "url"; "duration"; "json"].
Proof.
  assert (fails (_parse_value "port" Sample.PORT)) as Hfails by (eexists; reflexivity).
  split; [exact Hfails|]. apply (parse_fails_only "port" Sample.PORT Hfails).
Defined.


Lemma validate_env_invalid_witness :
  last_declaration Sample.API_URL (env_variables Sample.TEMPLATE_CONFIG "development")
  ∧ ({[ "API_URL" := "ftp://x" ]} : gmap string string) !! "API_URL" = Some "ftp://x"
  ∧ _parse_value "ftp://x" Sample.API_URL = Raise "URL must start with http:// or https://"
  ∧ msg_invalid "development" "API_URL" "URL must start with http:// or https://"
      ∈ validate_env Sample.TEMPLATE_CONFIG "development" ".env.development"
          {[ "API_URL" := "ftp://x" ]}.
Proof.
  assert (last_declaration Sample.API_URL
            (env_variables Sample.TEMPLATE_CONFIG "development")) as Hlast.
  { exists [], [Sample.FEATURE_FLAG]. split; [reflexivity | compute_done]. }
  split_and!; [exact Hlast | reflexivity | reflexivity |].
  apply (validate_env_invalid Sample.TEMPLATE_CONFIG "development" ".env.development"
           {[ "API_URL" := "ftp://x" ]} Sample.API_URL "ftp://x" _ Hlast);
    reflexivity.
Defined.

Lemma validate_env_declaration_order_witness :
  NoDup (VariableDefinition.name <$> env_variables Sample.TEMPLATE_CONFIG "development")
  ∧ ∃ extras,
      validate_env Sample.TEMPLATE_CONFIG "development" ".env.development" ∅
      = (env_variables Sample.TEMPLATE_CONFIG "development"
           ≫= λ v, check_declared "development" ".env.development" ∅ []
                     (VariableDefinition.name v, v))
        ++ ((λ k, msg_extra "development" k ".env.development") <$> extras)
      ∧ sorted_listing extras
          (λ k, is_Some ((∅ : gmap string string) !! k)
                ∧ ¬ declares Sample.TEMPLATE_CONFIG "development" k).
Proof.
  assert (NoDup (VariableDefinition.name
                   <$> env_variables Sample.TEMPLATE_CONFIG "development")) as Hnd
    by compute_done.
  split; [exact Hnd|].
  apply (validate_env_declaration_order Sample.TEMPLATE_CONFIG "development"
           ".env.development" ∅ Hnd).
Defined.

Lemma validate_env_file_missing_witness :
  NoDup (VariableDefinition.name <$> env_variables Sample.TEMPLATE_CONFIG "development")
  ∧ validate_env_file Sample.TEMPLATE_CONFIG "development" ".env.development" None
    = (λ v, msg_missing "development" (VariableDefinition.name v) ".env.development")
        <$> filter (λ v, VariableDefinition.required v = true
                         ∧ VariableDefinition.default v = None)
              (env_variables Sample.TEMPLATE_CONFIG "development").
Proof.
  assert (NoDup (VariableDefinition.name
                   <$> env_variables Sample.TEMPLATE_CONFIG "development")) as Hnd
    by compute_done.
  split; [exact Hnd|].
  apply (validate_env_file_missing Sample.TEMPLATE_CONFIG "development"
           ".env.development" Hnd).
Defined.

Example validate_schema_flawed :
  validate_schema Sample.flawed
  = (false,
     ["[development] variable 'LEGACY' uses unsupported type 'integer'.";
      "[development] variable 'CHOICE' is enum but enum values are empty."]).
Proof. vm_compute. reflexivity. Qed.

Example validate_schema_twice :
  validate_schema Sample.twice
  = (false, ["[development] variable 'LEVEL' is declared more than once."]).
Proof. vm_compute. reflexivity. Qed.

Lemma validate_schema_duplicate_witness :
  ("development", [Sample.LEVEL_required] ++ Sample.LEVEL_optional :: [])
    ∈ Config.environments Sample.twice
  ∧ VariableDefinition.name Sample.LEVEL_optional
      ∈ VariableDefinition.name <$> [Sample.LEVEL_required]
  ∧ (validate_schema Sample.twice).1 = false
  ∧ Config.msg_duplicate "development" "LEVEL" ∈ (validate_schema Sample.twice).2.
Proof.
  assert (("development", [Sample.LEVEL_required] ++ Sample.LEVEL_optional :: [])
            ∈ Config.environments Sample.twice) as Hentry by left.
  assert (VariableDefinition.name Sample.LEVEL_optional
            ∈ VariableDefinition.name <$> [Sample.LEVEL_required]) as Hin by left.
  split_and!; [exact Hentry | exact Hin | ..];
    apply (validate_schema_duplicate Sample.twice "development"
             [Sample.LEVEL_required] Sample.LEVEL_optional [] Hentry Hin).
Defined.

Lemma validate_schema_unsupported_type_witness :
  ("development", [Sample.API_URL; Sample.LEGACY; Sample.CHOICE])
    ∈ Config.environments Sample.flawed
  ∧ Sample.LEGACY ∈ [Sample.API_URL; Sample.LEGACY; Sample.CHOICE]
  ∧ (VariableDefinition.type Sample.LEGACY ∉ SUPPORTED_TYPES)
  ∧ (validate_schema Sample.flawed).1 = false
  ∧ VariableDefinition.msg_unsupported_type "development" "LEGACY" "integer"
      ∈ (validate_schema Sample.flawed).2.
Proof.
  assert (("development", [Sample.API_URL; Sample.LEGACY; Sample.CHOICE])
            ∈ Config.environments Sample.flawed) as Hentry by left.
  assert (Sample.LEGACY ∈ [Sample.API_URL; Sample.LEGACY; Sample.CHOICE]) as Hin
    by (right; left).
  assert (VariableDefinition.type Sample.LEGACY ∉ SUPPORTED_TYPES) as Htype
    by compute_done.
  split_and!; [exact Hentry | exact Hin | exact Htype | ..];
    apply (validate_schema_unsupported_type Sample.flawed "development" _
             Sample.LEGACY Hentry Hin Htype).
Defined.

Lemma validate_schema_empty_enum_witness :
  ("development", [Sample.API_URL; Sample.LEGACY; Sample.CHOICE])
    ∈ Config.environments Sample.flawed
  ∧ Sample.CHOICE ∈ [Sample.API_URL; Sample.LEGACY; Sample.CHOICE]
  ∧ VariableDefinition.type Sample.CHOICE = "enum"
  ∧ (VariableDefinition.enum Sample.CHOICE = None
     ∨ VariableDefinition.enum Sample.CHOICE = Some [])
  ∧ (validate_schema Sample.flawed).1 = false
  ∧ VariableDefinition.msg_empty_enum "development" "CHOICE"
      ∈ (validate_schema Sample.flawed).2.
Proof.
  assert (("development", [Sample.API_URL; Sample.LEGACY; Sample.CHOICE])
            ∈ Config.environments Sample.flawed) as Hentry by left.
  assert (Sample.CHOICE ∈ [Sample.API_URL; Sample.LEGACY; Sample.CHOICE]) as Hin
    by (right; right; left).
  split_and!; [exact Hentry | exact Hin | reflexivity | left; reflexivity | ..];
    apply (validate_schema_empty_enum Sample.flawed "development" _
             Sample.CHOICE Hentry Hin eq_refl (or_introl eq_refl)).
Defined.

Lemma validate_env_valid_schema_witness :
  (validate_schema Sample.TEMPLATE_CONFIG).1 = true
  ∧ (∀ v, v ∈ env_variables Sample.TEMPLATE_CONFIG "development" →
       msg_missing "development" (VariableDefinition.name v) ".env.development"
         ∈ validate_env Sample.TEMPLATE_CONFIG "development" ".env.development" ∅
       ↔ (∅ : gmap string string) !! VariableDefinition.name v = None
         ∧ VariableDefinition.required v = true
         ∧ VariableDefinition.default v = None)
  ∧ (validate_env Sample.TEMPLATE_CONFIG "development" ".env.development" ∅ = []
     ↔ (∀ k, is_Some ((∅ : gmap string string) !! k) →
          declares Sample.TEMPLATE_CONFIG "development" k)
       ∧ ∀ v, v ∈ env_variables Sample.TEMPLATE_CONFIG "development" → satisfies ∅ v).
Proof.
  assert ((validate_schema Sample.TEMPLATE_CONFIG).1 = true) as Hok
    by (vm_compute; reflexivity).
  split; [exact Hok|].
  apply (validate_env_valid_schema Sample.TEMPLATE_CONFIG "development"
           ".env.development" ∅ Hok).
Defined.

(** ** Reading files *)

Example load_env_file_dotenv :
  load_env_file (Some Sample.dotenv)
  = {[ "API_URL" := "https://example.org"; "FEATURE_FLAG" := "yes" ]}.
Proof. vm_compute. reflexivity. Qed.

Example validate_env_file_dotenv :
  validate_env_file Sample.TEMPLATE_CONFIG "development" ".env.development"
    (Some Sample.dotenv) = [].
Proof. vm_compute. reflexivity. Qed.

Lemma load_env_file_trimmed_witness :
  load_env_file (Some Sample.dotenv) !! "API_URL" = Some "https://example.org"
  ∧ Str.strip "API_URL" = "API_URL"
  ∧ Str.strip "https://example.org" = "https://example.org"
  ∧ Str.contains "=" "API_URL" = false.
Proof.
  assert (load_env_file (Some Sample.dotenv) !! "API_URL" = Some "https://example.org")
    as Hlookup by (vm_compute; reflexivity).
  split; [exact Hlookup|].
  apply (load_env_file_trimmed (Some Sample.dotenv) "API_URL" "https://example.org" Hlookup).
Defined.

Lemma load_env_file_append_witness :
  whole_lines Sample.dotenv
  ∧ env_key "TIMEOUT"
  ∧ env_value "1.5s"
  ∧ load_env_file (Some (Sample.dotenv ++ env_line "TIMEOUT" "1.5s")%string)
    = <["TIMEOUT" := "1.5s"]> (load_env_file (Some Sample.dotenv)).
Proof.
  assert (whole_lines Sample.dotenv) as Htext.
  { right.
    exists ("# local settings" ++ Sample.nl ++ "API_URL = https://example.org "
            ++ Sample.nl ++ Sample.nl ++ "FEATURE_FLAG=yes" ++ Sample.nl ++ "export")%string.
    reflexivity. }
  assert (env_key "TIMEOUT") as Hk by (by split_and!).
  assert (env_value "1.5s") as Hv by (by split_and!).
  split_and!; [exact Htext | exact Hk | exact Hv |].
  apply (load_env_file_append Sample.dotenv "TIMEOUT" "1.5s" Htext Hk Hv).
Defined.

Lemma load_env_file_ignored_witness :
  whole_lines Sample.dotenv
  ∧ one_line "  # not yet: DEBUG=1"
  ∧ (Str.strip "  # not yet: DEBUG=1" = EmptyString
     ∨ Str.startswith (Str.strip "  # not yet: DEBUG=1") "#" = true
     ∨ Str.contains "=" (Str.strip "  # not yet: DEBUG=1") = false)
  ∧ load_env_file
      (Some (Sample.dotenv ++ "  # not yet: DEBUG=1" ++ String Str.LF EmptyString)%string)
    = load_env_file (Some Sample.dotenv).
Proof.
  assert (whole_lines Sample.dotenv) as Htext.
  { right.
    exists ("# local settings" ++ Sample.nl ++ "API_URL = https://example.org "
            ++ Sample.nl ++ Sample.nl ++ "FEATURE_FLAG=yes" ++ Sample.nl ++ "export")%string.
    reflexivity. }
  assert (one_line "  # not yet: DEBUG=1") as Hline by (by split).
  assert (Str.strip "  # not yet: DEBUG=1" = EmptyString
          ∨ Str.startswith (Str.strip "  # not yet: DEBUG=1") "#" = true
          ∨ Str.contains "=" (Str.strip "  # not yet: DEBUG=1") = false) as Hignored
    by (right; left; reflexivity).
  split_and!; [exact Htext | exact Hline | exact Hignored |].
  apply (load_env_file_ignored Sample.dotenv "  # not yet: DEBUG=1" Htext Hline Hignored).
Defined.

Lemma load_env_file_env_text_witness :
  Forall (λ kv, env_key kv.1 ∧ env_value kv.2) [("A", "1"); ("B", "x=y #z"); ("A", "2")]
  ∧ load_env_file (Some (env_text [("A", "1"); ("B", "x=y #z"); ("A", "2")]))
    = list_to_map (reverse [("A", "1"); ("B", "x=y #z"); ("A", "2")]).
Proof.
  assert (Forall (λ kv, env_key kv.1 ∧ env_value kv.2)
            [("A", "1"); ("B", "x=y #z"); ("A", "2")]) as Hall.
  { repeat constructor; by split_and!. }
  split; [exact Hall|].
  apply (load_env_file_env_text [("A", "1"); ("B", "x=y #z"); ("A", "2")] Hall).
Defined.

(** ** The commands *)

Example validate_command_template :
  cli.validate_command Sample.TEMPLATE_CONFIG ".env.development" (Some Sample.dotenv)
    "development" (Some "production")
  = ([], 0%Z).
Proof. vm_compute. reflexivity. Qed.

Example validate_command_missing_file :
  cli.validate_command Sample.TEMPLATE_CONFIG ".env.development" None "development" None
  = ([(cli.ERROR,
       "[development] missing required variable 'API_URL' in .env.development")],
     1%Z).
Proof. vm_compute. reflexivity. Qed.

Example init_gitignore_new :
  cli.init_gitignore None = (".env.*" ++ Sample.nl ++ "generated" ++ Sample.nl)%string.
Proof. vm_compute. reflexivity. Qed.

Example init_gitignore_existing :
  cli.init_gitignore (Some ("node_modules" ++ Sample.nl ++ "generated/ts" ++ Sample.nl)%string)
  = ("node_modules" ++ Sample.nl ++ "generated/ts" ++ Sample.nl ++ Sample.nl
     ++ ".env.*" ++ Sample.nl)%string.
Proof. vm_compute. reflexivity. Qed.
